(** * ProblemGenerationAgent: the generate-validate-retry pipeline

    A shallow embedding of [run/pg_helpers.py] and of the main loop of
    [run/main_ProblemGeneratorV6.py], with the properties of the pipeline
    proved (or refuted) over it.

    Layout: Python values and string helpers; the helpers
    [compute_problem_signature], [validate_problem],
    [execute_and_validate_in_repl]; the durable store; the main loop as a
    state-passing program over the replies of the model service; then the
    theorems. *)

From Stdlib Require Import ZArith QArith Ascii String List Permutation Sorted.
From stdpp Require Import base decidable list sorting strings pretty gmap.

Set Default Proof Using "Type".

(** ** Python values *)

(** A Python [float]: not-a-number, an infinity, or a finite value.  A finite
    value is kept as the rational it denotes, which is what Python's
    comparisons look at (an [int] and a [float] are compared exactly). *)
Inductive pyfloat : Type :=
  | FNaN
  | FInf (negative : bool)
  | FFin (q : Q).

(** The scalars [json.loads] produces, and what a generated [solve] may
    return. *)
Inductive pyval : Type :=
  | PyNone
  | PyBool (b : bool)
  | PyInt (z : Z)
  | PyFloat (f : pyfloat)
  | PyStr (s : string).

(** A number of a declared range: a JSON integer or a JSON real. *)
Inductive pynum : Type :=
  | NInt (z : Z)
  | NFloat (f : pyfloat).

Definition num_float (n : pynum) : pyfloat :=
  match n with
  | NInt z => FFin (inject_Z z)
  | NFloat f => f
  end.

(** [a <= b] on Python numbers: every comparison with NaN is false. *)
Definition float_le (a b : pyfloat) : bool :=
  match a, b with
  | FNaN, _ | _, FNaN => false
  | FInf true, _ => true
  | _, FInf false => true
  | FInf false, _ => false
  | _, FInf true => false
  | FFin p, FFin q => Qle_bool p q
  end.

(** [a < 0]. *)
Definition float_neg (a : pyfloat) : bool :=
  match a with
  | FNaN => false
  | FInf negative => negative
  | FFin q => negb (Qle_bool 0 q)
  end.

(** What [exec], [float] and [math.isnan] can do besides returning: raise.
    [exc_class] is the class of the exception, [exc_msg] its [str()]. *)
Record exception : Type := Exception { exc_class : string; exc_msg : string }.

Inductive outcome (A : Type) : Type :=
  | Ret (a : A)
  | Exc (e : exception).
Arguments Ret {A} a.
Arguments Exc {A} e.

(** The built-ins of the interpreter that the helpers call and that are not
    modelled here: the conversion of an [int] to a [float] ([None] when it
    raises [OverflowError]), the parsing of a [str] by [float()] ([None] when
    it raises [ValueError]), and the [str()] of a [float]. *)
Class PyBuiltins : Type := {
  float_of_int : Z -> option Q;
  float_of_str : string -> option pyfloat;
  str_float : pyfloat -> string
}.

(** ** Strings *)

(** [str.lower()] on the ASCII letters.  The helpers only compare the
    lowered text with ASCII words (['nan'], ['mass'], ...), and no character
    outside ASCII lowers to one of the letters of these words, so the other
    bytes are left alone. *)
Definition ascii_lower (c : ascii) : ascii :=
  let n := nat_of_ascii c in
  if (65 <=? n)%nat && (n <=? 90)%nat then ascii_of_nat (n + 32) else c.

Fixpoint lower (s : string) : string :=
  match s with
  | EmptyString => EmptyString
  | String c s' => String (ascii_lower c) (lower s')
  end.

(** [x in s] for two strings. *)
Fixpoint contains (x s : string) : bool :=
  String.prefix x s ||
  match s with
  | EmptyString => false
  | String _ s' => contains x s'
  end.

(** [sep.join(l)]. *)
Fixpoint join (sep : string) (l : list string) : string :=
  match l with
  | [] => ""
  | [x] => x
  | x :: l' => x +:+ sep +:+ join sep l'
  end.

(** [sorted(l)] for a list of strings.  Python orders strings by code
    point, which is the byte order of their UTF-8 encoding. *)
Definition sorted (l : list string) : list string := merge_sort String.le l.

(** ** Candidate problems *)

(** One entry of the [variables] mapping; [value] is [v.get('value')],
    [PyNone] when the key is missing. *)
Record var_data : Type := VarData { value : pyval; unit : string }.

(** A parsed Call2 response.  A Python [dict] keeps its keys in insertion
    order, and the helpers take the first matching entry, so the mapping is
    a list of items. *)
Record candidate : Type := Candidate {
  word_problem : string;
  formula_ids : list string;
  variables : list (string * var_data)
}.

(** [str(v).lower() == 'nan']: a string that lowers to ['nan'], or the float
    NaN, whose [str()] is ['nan'].  The [str()] of the other values is
    ['None'], ['True'], ['False'], a numeral, ['inf'] or ['-inf']. *)
Definition is_nan (v : pyval) : bool :=
  match v with
  | PyStr s => String.eqb (lower s) "nan"
  | PyFloat FNaN => true
  | _ => false
  end.

(** [[k for k, v in variables.items() if str(v.get('value')).lower() == 'nan']] *)
Definition nan_vars (vars : list (string * var_data)) : list string :=
  List.map fst (List.filter (fun kv => is_nan (value (snd kv))) vars).

(** [str(x)] of [None] or of a name, as an f-string prints it. *)
Definition str_option (o : option string) : string :=
  match o with
  | None => "None"
  | Some k => k
  end.

(** The loop of [compute_problem_signature] that stops at the first
    unknown. *)
Fixpoint first_unknown (vars : list (string * var_data)) : option string :=
  match vars with
  | [] => None
  | (k, v) :: rest => if is_nan (value v) then Some k else first_unknown rest
  end.

Definition compute_problem_signature (op_call2_data : candidate) : string :=
  let sorted_fids := sorted (formula_ids op_call2_data) in
  let unknown := first_unknown (variables op_call2_data) in
  "fids=[" +:+ join "," sorted_fids +:+ "]|unknown=" +:+ str_option unknown.

(** ** The candidate validator *)

(** An entry of [variable_ranges]: [range] is the list under the key
    ['range'], [None] when the entry is not a dict, has no such key, or holds
    something that is not a list there. *)
Record var_range : Type := VarRange { range : option (list pynum) }.

(** An entry of [previous_problems]. *)
Module Previous.
Record t : Type := Make {
  signature : string;
  snippet : string;
  created_at : string
}.
End Previous.

(** The dict [validate_problem] returns: [{'valid': False, 'error': ...}] or
    [{'valid': True, 'unknown_var': ...}]. *)
Inductive validation : Type :=
  | Invalid (error : string)
  | Valid (unknown_var : string).

(** [float(v)]: a float, or one of the three errors it raises. *)
Inductive float_result : Type :=
  | FloatOk (x : pyfloat)
  | FloatValueError
  | FloatTypeError
  | FloatOverflowError.

Definition overflow_error : exception :=
  Exception "OverflowError" "int too large to convert to float".

Section Validator.
Context `{PyBuiltins}.

Definition py_float (v : pyval) : float_result :=
  match v with
  | PyNone => FloatTypeError
  | PyBool b => FloatOk (FFin (if b then 1 else 0))
  | PyInt z =>
      match float_of_int z with
      | Some q => FloatOk (FFin q)
      | None => FloatOverflowError
      end
  | PyFloat f => FloatOk f
  | PyStr s =>
      match float_of_str s with
      | Some f => FloatOk f
      | None => FloatValueError
      end
  end.

(** [str(v)], as an f-string prints a value. *)
Definition py_str (v : pyval) : string :=
  match v with
  | PyNone => "None"
  | PyBool true => "True"
  | PyBool false => "False"
  | PyInt z => pretty z
  | PyFloat f => str_float f
  | PyStr s => s
  end.

Definition str_num (n : pynum) : string :=
  match n with
  | NInt z => pretty z
  | NFloat f => str_float f
  end.

Definition invalid_value_error (var_name : string) (v : pyval) : string :=
  "Variable '" +:+ var_name +:+ "' has an invalid numerical value: '"
    +:+ py_str v +:+ "'.".

Definition out_of_range_error (var_name : string) (actual_value : pyfloat)
    (range_min range_max : pynum) : string :=
  var_name +:+ " with value " +:+ str_float actual_value
    +:+ " is out of expected range [" +:+ str_num range_min +:+ ", "
    +:+ str_num range_max +:+ "].".

(** [range_min <= actual_value <= range_max] *)
Definition in_range (range_min range_max : pynum) (actual_value : pyfloat) : bool :=
  float_le (num_float range_min) actual_value
  && float_le actual_value (num_float range_max).

(** The loop over [variables.items()] of lines 173-184: the error of the
    first entry it rejects, [None] when it runs to the end; the
    [OverflowError] of [float()] is not caught and leaves the function. *)
Fixpoint check_ranges (variable_ranges : gmap string var_range)
    (vars : list (string * var_data)) : outcome (option string) :=
  match vars with
  | [] => Ret None
  | (var_name, var_data) :: rest =>
      if is_nan (value var_data) then check_ranges variable_ranges rest
      else
        match variable_ranges !! var_name with
        | Some {| range := Some [range_min; range_max] |} =>
            match py_float (value var_data) with
            | FloatValueError | FloatTypeError =>
                Ret (Some (invalid_value_error var_name (value var_data)))
            | FloatOverflowError => Exc overflow_error
            | FloatOk actual_value =>
                if negb (in_range range_min range_max actual_value)
                then Ret (Some (out_of_range_error var_name actual_value
                                  range_min range_max))
                else check_ranges variable_ranges rest
            end
        | _ => check_ranges variable_ranges rest
        end
  end.

(** [any(prev.get('signature') == current_signature for prev in previous_problems)] *)
Definition signature_seen (sig : string) (previous_problems : list Previous.t) : bool :=
  existsb (fun prev_problem => String.eqb (Previous.signature prev_problem) sig)
          previous_problems.

Definition validate_problem (output : candidate) (formula_dict : gset string)
    (variable_ranges : gmap string var_range)
    (previous_problems : list Previous.t) : outcome validation :=
  let formula_id_set := formula_dict in
  if negb (forallb (fun fid => bool_decide (fid ∈ formula_id_set))
                   (formula_ids output))
  then Ret (Invalid "Invalid formula_id")
  else
    let nan_vars := nan_vars (variables output) in
    if negb (length nan_vars =? 1)%nat
    then Ret (Invalid ("Must have exactly 1 unknown, found "
                         +:+ pretty (length nan_vars)))
    else
      let unknown_var := hd "" nan_vars in
      match check_ranges variable_ranges (variables output) with
      | Exc e => Exc e
      | Ret (Some error) => Ret (Invalid error)
      | Ret None =>
          let current_signature := compute_problem_signature output in
          if signature_seen current_signature previous_problems
          then Ret (Invalid "Duplicate problem signature")
          else Ret (Valid unknown_var)
      end.

(** The third check in the words of the specification: an entry passes when
    it is the unknown, when no two-element range is declared for its name, or
    when its value converts to a float that lies in the declared range, the
    bounds included. *)
Definition within_declared_range (variable_ranges : gmap string var_range)
    (kv : string * var_data) : bool :=
  is_nan (value (snd kv)) ||
  match variable_ranges !! fst kv with
  | Some {| range := Some [range_min; range_max] |} =>
      match py_float (value (snd kv)) with
      | FloatOk actual_value => in_range range_min range_max actual_value
      | _ => false
      end
  | _ => true
  end.

End Validator.

(** ** The code executor *)

(** The generated code is a string that [exec] runs; it enters the helper
    through what running it does.  Executing the module either raises, or
    finishes and leaves a namespace in which ['solve'] is absent, bound to
    something that is not callable, or bound to a callable; calling that
    callable raises or returns a value.  (Code that does not terminate has no
    behaviour here.)  [derives_Exception] tells whether [except Exception]
    catches the error: it does not catch [SystemExit] and the like. *)
Record raised : Type := Raised { derives_Exception : bool; error_of : exception }.

Inductive solve_call : Type :=
  | SolveRaises (e : raised)
  | SolveReturns (result : pyval).

Inductive binding : Type :=
  | NotCallable
  | Callable (call : solve_call).

Inductive code : Type :=
  | ExecRaises (e : raised)
  | ExecDefines (solve : option binding).

(** The dict [execute_and_validate_in_repl] returns:
    [{'valid': False, 'error': ..., 'result': ...}] or
    [{'valid': True, 'result': ...}]. *)
Inductive execution : Type :=
  | ExecInvalid (error : string) (result : option pyval)
  | ExecValid (result : pyval).

Definition sign_tokens : list string :=
  ["mass"; "distance"; "time"; "speed"; "velocity"; "energy"].

Section Executor.
Context `{PyBuiltins}.

(** The [except Exception as e] clause of line 209. *)
Definition execution_failed (e : raised) : outcome execution :=
  if derives_Exception e
  then Ret (ExecInvalid ("Execution failed: " +:+ exc_msg (error_of e)) None)
  else Exc (error_of e).

(** [isinstance(result, (int, float))]; [bool] is a subclass of [int]. *)
Definition is_int_or_float (result : pyval) : bool :=
  match result with
  | PyBool _ | PyInt _ | PyFloat _ => true
  | PyNone | PyStr _ => false
  end.

(** [math.isnan(result) or math.isinf(result)] on an int or a float: both
    convert an [int] to a float first, which raises for a large one. *)
Definition nan_or_inf (result : pyval) : outcome bool :=
  match result with
  | PyFloat FNaN | PyFloat (FInf _) => Ret true
  | PyInt z =>
      match float_of_int z with
      | Some _ => Ret false
      | None => Exc overflow_error
      end
  | _ => Ret false
  end.

(** [result < 0] *)
Definition negative (result : pyval) : bool :=
  match result with
  | PyInt z => (z <? 0)%Z
  | PyFloat f => float_neg f
  | _ => false
  end.

Definition check_result (result : pyval) (variables : list (string * var_data))
    : outcome execution :=
  if negb (is_int_or_float result)
  then Ret (ExecInvalid "Invalid return type" None)
  else
    match nan_or_inf result with
    | Exc e => Exc e
    | Ret true => Ret (ExecInvalid "Result is NaN or Inf" None)
    | Ret false =>
        match nan_vars variables with
        | unknown_var :: _ =>
            if negative result
               && existsb (fun x => contains x (lower unknown_var)) sign_tokens
            then Ret (ExecInvalid ("Negative value for " +:+ unknown_var)
                                  (Some result))
            else Ret (ExecValid result)
        | [] => Ret (ExecValid result)
        end
    end.

Definition execute_and_validate_in_repl (code : code)
    (variables : list (string * var_data)) : outcome execution :=
  match code with
  | ExecRaises e => execution_failed e
  | ExecDefines None | ExecDefines (Some NotCallable) =>
      Ret (ExecInvalid "'solve()' function not found" None)
  | ExecDefines (Some (Callable (SolveRaises e))) => execution_failed e
  | ExecDefines (Some (Callable (SolveReturns result))) =>
      check_result result variables
  end.

(** A result that passes the type check and the NaN/Inf check: a [bool], an
    [int] that converts to a float, or a finite [float]. *)
Definition finite_number (result : pyval) : bool :=
  match result with
  | PyBool _ => true
  | PyInt z => bool_decide (is_Some (float_of_int z))
  | PyFloat (FFin _) => true
  | _ => false
  end.

End Executor.

(** The name of a variable contains one of the tokens of the sign check,
    whatever the case of its letters. *)
Definition sign_checked (unknown_var : string) : bool :=
  existsb (fun x => contains x (lower unknown_var)) sign_tokens.

(** The code [def solve(): return v]. *)
Definition returning (v : pyval) : code :=
  ExecDefines (Some (Callable (SolveReturns v))).

(** ** The durable store *)

(** A record of the durable store: the dict built on lines 315-328, or a
    dict read back from the file.  [signature] is [rec.get('signature')],
    [None] when the key is missing. *)
Module SuccessRecord.
Record t : Type := Make {
  signature : option string;
  formula_ids : list string;
  unknown_var : option string;
  word_problem : string;
  variables : list (string * var_data);
  code : string;
  result : option pyval;
  execution_result : execution;
  validation_result : validation;
  created_at : string;
  Pair_Number : Z;
  source_problem_ID : string
}.
End SuccessRecord.

(** [if sig]: a signature that is present and not the empty string. *)
Definition truthy (sig : option string) : option string :=
  match sig with
  | Some "" | None => None
  | Some s => Some s
  end.

(** The file at [success_file_path]: absent, present but such that [open]
    or [json.load] raises (with message [e]), holding JSON that is not an array, or holding an
    array of records.  [text] is what the file holds. *)
Inductive disk_file : Type :=
  | Absent
  | Unreadable (text : string) (e : string)
  | NotAList (text : string)
  | Array (records : list SuccessRecord.t).

(** Lines 46-58: the records the run starts from, and what it prints. *)
Definition load_existing_records (f : disk_file) : list SuccessRecord.t * list string :=
  match f with
  | Absent => ([], [])
  | Array data => (data, [])
  | NotAList _ =>
      ([], ["Warning: existing successful_problems.json is not a list; will be overwritten as we write incrementally."])
  | Unreadable _ e =>
      ([], ["Warning: could not read existing successful_problems.json: " +:+ e
              +:+ ". Will create/overwrite as we go."])
  end.

(** Line 60. *)
Definition signatures_of (existing_records : list SuccessRecord.t) : gset string :=
  list_to_set (omap (fun r => truthy (SuccessRecord.signature r)) existing_records).

(** [atomic_write_json]: the file is replaced by the dump of [data] in one
    [os.replace]; when writing the temporary file or replacing raises
    ([writable = false]) the file keeps what it held. *)
Definition atomic_write_json (writable : bool) (f : disk_file)
    (data : list SuccessRecord.t) : disk_file :=
  if writable then Array data else f.

(** The loop of lines 344-348 over [per_row_successful], on the pair
    [(existing_records, existing_signatures)]. *)
Fixpoint merge_records (per_row_successful : list SuccessRecord.t)
    (existing_records : list SuccessRecord.t) (existing_signatures : gset string)
    : list SuccessRecord.t * gset string :=
  match per_row_successful with
  | [] => (existing_records, existing_signatures)
  | rec :: rest =>
      match truthy (SuccessRecord.signature rec) with
      | Some sig =>
          if bool_decide (sig ∉ existing_signatures)
          then merge_records rest (existing_records ++ [rec])
                             ({[sig]} ∪ existing_signatures)
          else merge_records rest existing_records existing_signatures
      | None => merge_records rest existing_records existing_signatures
      end
  end.

(** ** The main loop *)

(** A response of the model service, through the two readings the loop
    makes of its text: [llm_op_to_json] ([None] when the result is [None] or
    empty) and [sanitize_code_text] followed by [exec]. *)
Record response : Type := Response {
  parsed : option candidate;
  code_text : string;
  behaviour : code
}.

(** [llm.generate_content(...)] returns a response or raises. *)
Inductive reply : Type :=
  | LlmRaises
  | LlmText (r : response).

(** The five places that call the service in a cycle, named after the
    variable that receives the response.  [Op_call2a] and [Op_call2b] both
    format [sys_call2a], [Op_call3a] formats [sys_call3a]; [error_message]
    is the feedback they format in.  The other arguments of the prompts
    are left out. *)
Inductive prompt : Type :=
  | Op_call2
  | Op_call2a (error_message : string)
  | Op_call2b (error_message : string)
  | Op_call3
  | Op_call3a (error_message : string).

(** What a cycle does that the properties below speak about. *)
Inductive event : Type :=
  | Asked (p : prompt)
  | Validated (v : validation)
  | Executed (x : execution)
  | Recorded (r : SuccessRecord.t).

(** The outside of the script: the [n]-th call of the service, the clock
    read in the [n]-th cycle, and whether the store file can be written once
    [n] cycles have run. *)
Record world : Type := World {
  llm : nat -> reply;
  utcnow : nat -> string;
  writable : nat -> bool
}.

(** What line 145 and Call1 hand to the loop of one CSV row. *)
Record row : Type := Row {
  Pair_Number : Z;
  source_problem_ID : string;
  formula_id_set : gset string;
  variable_ranges : gmap string var_range;
  alternate_scenarios : list string
}.

(** The variables of the script that the loop assigns, with the number of
    service calls made so far, the events so far, the store file, and the
    warnings printed while the store was loaded. *)
Record state : Type := State {
  existing_records : list SuccessRecord.t;
  existing_signatures : gset string;
  total_cycles_attempted : nat;
  duplicates_skipped : nat;
  parse_failures : nat;
  execution_failures : nat;
  previous_problems : list Previous.t;
  scenario_idx : nat;
  current_iteration : nat;
  per_row_successful : list SuccessRecord.t;
  llm_calls : nat;
  trace : list event;
  disk : disk_file;
  warnings : list string
}.

Definition max_iterations : nat := 12.
Definition target_problems : nat := 10.

(** How a statement ends: normally, by [continue], or by an exception that
    nothing catches. *)
Inductive flow (A : Type) : Type :=
  | Normal (a : A)
  | Continue
  | Raise (e : exception).
Arguments Normal {A} a.
Arguments Continue {A}.
Arguments Raise {A} e.

Definition M (A : Type) : Type := state -> state * flow A.

#[global] Instance M_ret : MRet M := fun A a st => (st, Normal a).

#[global] Instance M_bind : MBind M := fun A B f m st =>
  match m st with
  | (st', Normal a) => f a st'
  | (st', Continue) => (st', Continue)
  | (st', Raise e) => (st', Raise e)
  end.

Definition gets {A : Type} (f : state -> A) : M A := fun st => (st, Normal (f st)).
Definition modify (f : state -> state) : M () := fun st => (f st, Normal ()).
Definition continue {A : Type} : M A := fun st => (st, Continue).

(** A helper that returns or raises, called outside any [try]. *)
Definition call {A : Type} (o : outcome A) : M A := fun st =>
  match o with
  | Ret a => (st, Normal a)
  | Exc e => (st, Raise e)
  end.

(** The body of a [for] loop: [continue] ends the body, not the loop. *)
Definition body (m : M ()) : M () := fun st =>
  match m st with
  | (st', Continue) => (st', Normal ())
  | r => r
  end.

Definition set_counters (cycles dups parses execs : nat) (st : state) : state :=
  State (existing_records st) (existing_signatures st) cycles dups parses execs
        (previous_problems st) (scenario_idx st) (current_iteration st)
        (per_row_successful st) (llm_calls st) (trace st) (disk st) (warnings st).

Definition count_cycle (st : state) : state :=
  set_counters (S (total_cycles_attempted st)) (duplicates_skipped st)
               (parse_failures st) (execution_failures st) st.
Definition count_duplicate (st : state) : state :=
  set_counters (total_cycles_attempted st) (S (duplicates_skipped st))
               (parse_failures st) (execution_failures st) st.
Definition count_parse_failure (st : state) : state :=
  set_counters (total_cycles_attempted st) (duplicates_skipped st)
               (S (parse_failures st)) (execution_failures st) st.
Definition count_execution_failure (st : state) : state :=
  set_counters (total_cycles_attempted st) (duplicates_skipped st)
               (parse_failures st) (S (execution_failures st)) st.

Definition set_loop (idx iteration : nat) (successful : list SuccessRecord.t)
    (previous : list Previous.t) (st : state) : state :=
  State (existing_records st) (existing_signatures st)
        (total_cycles_attempted st) (duplicates_skipped st) (parse_failures st)
        (execution_failures st) previous idx iteration successful
        (llm_calls st) (trace st) (disk st) (warnings st).

Definition set_io (calls : nat) (events : list event) (st : state) : state :=
  State (existing_records st) (existing_signatures st)
        (total_cycles_attempted st) (duplicates_skipped st) (parse_failures st)
        (execution_failures st) (previous_problems st) (scenario_idx st)
        (current_iteration st) (per_row_successful st) calls events
        (disk st) (warnings st).

Definition set_store (records : list SuccessRecord.t) (sigs : gset string)
    (f : disk_file) (out : list string) (st : state) : state :=
  State records sigs
        (total_cycles_attempted st) (duplicates_skipped st) (parse_failures st)
        (execution_failures st) (previous_problems st) (scenario_idx st)
        (current_iteration st) (per_row_successful st) (llm_calls st)
        (trace st) f out.

Definition emit (e : event) : M () :=
  modify (fun st => set_io (llm_calls st) (trace st ++ [e]) st).

Section Orchestrator.
Context `{PyBuiltins} (w : world).

(** [llm.generate_content(...)] under its [try]: the response, or [None]
    when the call raised. *)
Definition generate_content (p : prompt) : M (option response) := fun st =>
  let st' := set_io (S (llm_calls st)) (trace st ++ [Asked p]) st in
  match llm w (llm_calls st) with
  | LlmRaises => (st', Normal None)
  | LlmText t => (st', Normal (Some t))
  end.

Definition validate (r : row) (op_call2_data : candidate) : M validation :=
  previous ← gets previous_problems;
  validation_result ← call (validate_problem op_call2_data (formula_id_set r)
                              (variable_ranges r) previous);
  emit (Validated validation_result);;
  mret validation_result.

Definition execute (t : response) (op_call2_data : candidate) : M execution :=
  action3_result ← call (execute_and_validate_in_repl (behaviour t)
                           (variables op_call2_data));
  emit (Executed action3_result);;
  mret action3_result.

Definition parse_hint : string := "Parsing failure from previous response.".

(** Lines 182-218: Call2 and the retry on a parse failure. *)
Definition generate : M candidate :=
  op_call2 ← generate_content Op_call2;
  match op_call2 with
  | None => modify count_parse_failure;; continue
  | Some t =>
      match parsed t with
      | Some op_call2_data => mret op_call2_data
      | None =>
          modify count_parse_failure;;
          op_call2a ← generate_content (Op_call2a parse_hint);
          match op_call2a with
          | None => continue
          | Some t' =>
              match parsed t' with
              | Some op_call2_data => mret op_call2_data
              | None => modify count_parse_failure;; continue
              end
          end
      end
  end.

(** Lines 220-260: validation and the retry of Call2 with feedback.  The
    result is the candidate that passed and its unknown variable. *)
Definition validated (r : row) (op_call2_data : candidate) : M (candidate * string) :=
  validation_result ← validate r op_call2_data;
  match validation_result with
  | Valid unknown_var => mret (op_call2_data, unknown_var)
  | Invalid error_message =>
      op_call2b ← generate_content (Op_call2b error_message);
      match op_call2b with
      | None => modify count_parse_failure;; continue
      | Some t =>
          match parsed t with
          | None => modify count_parse_failure;; continue
          | Some op_call2_data' =>
              validation_result' ← validate r op_call2_data';
              match validation_result' with
              | Valid unknown_var => mret (op_call2_data', unknown_var)
              | Invalid _ => modify count_parse_failure;; continue
              end
          end
      end
  end.

(** Lines 269-311: Call3, execution, and the retry of Call3 with
    feedback.  The result is the code that ran and what it returned. *)
Definition executed (op_call2_data : candidate) : M (string * pyval) :=
  op_call3 ← generate_content Op_call3;
  match op_call3 with
  | None => modify count_execution_failure;; continue
  | Some t =>
      action3_result ← execute t op_call2_data;
      match action3_result with
      | ExecValid result => mret (code_text t, result)
      | ExecInvalid err_msg _ =>
          op_call3a ← generate_content (Op_call3a err_msg);
          match op_call3a with
          | None => modify count_execution_failure;; continue
          | Some t' =>
              action3_result' ← execute t' op_call2_data;
              match action3_result' with
              | ExecValid result => mret (code_text t', result)
              | ExecInvalid _ _ => modify count_execution_failure;; continue
              end
          end
      end
  end.

(** Lines 313-336. *)
Definition record (r : row) (op_call2_data : candidate) (unknown_var : string)
    (signature : string) (code_text : string) (result : pyval) : M () :=
  now ← gets (fun st => utcnow w (total_cycles_attempted st));
  let successful_record :=
    SuccessRecord.Make (Some signature) (formula_ids op_call2_data)
      (Some unknown_var) (word_problem op_call2_data)
      (variables op_call2_data) code_text (Some result) (ExecValid result)
      (Valid unknown_var) now (Pair_Number r) (source_problem_ID r) in
  let entry :=
    Previous.Make signature (String.substring 0 140 (word_problem op_call2_data))
                  now in
  modify (fun st =>
    set_loop (scenario_idx st) (current_iteration st)
             (per_row_successful st ++ [successful_record])
             (take 10 (entry :: previous_problems st)) st);;
  emit (Recorded successful_record).

(** The body of [for cycle_no in range(2)], lines 173-336. *)
Definition cycle (r : row) : M () :=
  modify count_cycle;;
  op_call2_data ← generate;
  '(op_call2_data, unknown_var) ← validated r op_call2_data;
  let signature := compute_problem_signature op_call2_data in
  previous ← gets previous_problems;
  if signature_seen signature previous
  then modify count_duplicate;; continue
  else
    '(code_text, result) ← executed op_call2_data;
    record r op_call2_data unknown_var signature code_text result.

(** Lines 159-172: one pass of the [while] body. *)
Definition iteration (r : row) : M () :=
  modify (fun st =>
    set_loop (if alternate_scenarios r is [] then scenario_idx st
              else S (scenario_idx st))
             (S (current_iteration st)) (per_row_successful st)
             (previous_problems st) st);;
  body (cycle r);;
  body (cycle r).

(** The [while] of line 158, by recursion on
    [max_iterations - current_iteration]: its first conjunct holds exactly
    while that difference is positive. *)
Fixpoint iterations (target : nat) (r : row) (remaining : nat) : M () :=
  match remaining with
  | 0 => mret ()
  | S remaining' =>
      successful ← gets per_row_successful;
      if (length successful <? target)%nat
      then iteration r;; iterations target r remaining'
      else mret ()
  end.

(** Lines 151-158: the counters of the row are reset, the history is
    not. *)
Definition generation_loop (max_iter target : nat) (r : row) : M () :=
  modify (fun st => set_loop 0 0 [] (previous_problems st) st);;
  iterations target r max_iter.

(** Lines 343-352: the merge and the write, under their [try]. *)
Definition persist : M () :=
  modify (fun st =>
    let '(records, sigs) :=
      merge_records (per_row_successful st) (existing_records st)
                    (existing_signatures st) in
    let ok := writable w (total_cycles_attempted st) in
    set_store records sigs (atomic_write_json ok (disk st) records)
              (warnings st) st).

(** One CSV row whose Call1 went through. *)
Definition process_row (r : row) : M () :=
  generation_loop max_iterations target_problems r;;
  persist.

Fixpoint process_rows (rows : list row) : M () :=
  match rows with
  | [] => mret ()
  | r :: rest => process_row r;; process_rows rest
  end.

End Orchestrator.

(** Lines 46-74: the state the CSV loop starts from. *)
Definition start (f : disk_file) : state :=
  let '(records, out) := load_existing_records f in
  State records (signatures_of records) 0 0 0 0 [] 0 0 [] 0 [] f out.

(** ** Reading the events of a cycle *)

(** The results of the validations among the events, in order. *)
Definition validations (events : list event) : list validation :=
  omap (fun e => match e with Validated v => Some v | _ => None end) events.

(** The results of the executions among the events, in order. *)
Definition executions (events : list event) : list execution :=
  omap (fun e => match e with Executed x => Some x | _ => None end) events.

(** The prompts among the events, in order. *)
Definition prompts (events : list event) : list prompt :=
  omap (fun e => match e with Asked p => Some p | _ => None end) events.

Definition is_parse_retry (p : prompt) : bool :=
  match p with Op_call2a _ => true | _ => false end.
Definition is_validation_retry (p : prompt) : bool :=
  match p with Op_call2b _ => true | _ => false end.
Definition is_execution_retry (p : prompt) : bool :=
  match p with Op_call3a _ => true | _ => false end.

(** The store file exists and does not hold a JSON array. *)
Definition corrupt (f : disk_file) : bool :=
  match f with
  | Unreadable _ _ | NotAList _ => true
  | Absent | Array _ => false
  end.

(** ** Data of the examples *)

(** Built-ins for the closed examples below.  They agree with CPython on the
    values the examples use: integers below [2^53] (which convert to a float
    without rounding), strings that are plain decimal numerals, and floats
    with an integral value below [10^16] (printed as [400.0]). *)
Fixpoint digits (s : string) (acc : Z) : option Z :=
  match s with
  | EmptyString => Some acc
  | String c s' =>
      let n := Z.of_nat (nat_of_ascii c) in
      if ((48 <=? n) && (n <=? 57))%Z then digits s' (10 * acc + (n - 48))%Z
      else None
  end.

Definition numeral (s : string) : option Z :=
  match s with
  | EmptyString => None
  | String "-" EmptyString => None
  | String "-" s' => Z.opp <$> digits s' 0
  | _ => digits s 0
  end.

Definition example_str_float (f : pyfloat) : string :=
  match f with
  | FNaN => "nan"
  | FInf false => "inf"
  | FInf true => "-inf"
  | FFin q =>
      if (Qden q =? 1)%positive then pretty (Qnum q) +:+ ".0"
      else pretty (Qnum q) +:+ "/" +:+ pretty (Zpos (Qden q))
  end.

#[local] Instance example_builtins : PyBuiltins := {|
  float_of_int z := Some (inject_Z z);
  float_of_str s := (fun z => FFin (inject_Z z)) <$> numeral s;
  str_float := example_str_float
|}.

Definition known_F1_F2 : gset string := {[ "F1"; "F2" ]}.

Definition mass_range : gmap string var_range :=
  {[ "mass" := VarRange (Some [NInt 1; NInt 10]) ]}.

(** The variables of the end-to-end scenario, with the sentinel the code
    looks for (the prompts ask the model for the string ["NaN"]). *)
Definition scenario_variables : list (string * var_data) :=
  [("mass", VarData (PyInt 4) "kg");
   ("acceleration", VarData (PyStr "NaN") "m/s^2")].

(** The same variables with the text ["unknown"] in the place of the
    sentinel. *)
Definition scenario_variables_unknown : list (string * var_data) :=
  [("mass", VarData (PyInt 4) "kg");
   ("acceleration", VarData (PyStr "unknown") "m/s^2")].

(** A mass outside its range, next to the one unknown. *)
Definition heavy_variables : list (string * var_data) :=
  [("mass", VarData (PyInt 400) "kg");
   ("acceleration", VarData (PyStr "NaN") "m/s^2")].

(** A value that is no number, for a name whose entry declares no range. *)
Definition worded_variables : list (string * var_data) :=
  [("mass", VarData (PyStr "heavy") "kg");
   ("acceleration", VarData (PyStr "NaN") "m/s^2")].

Definition mass_without_range : gmap string var_range :=
  {[ "mass" := VarRange None ]}.

(** The error of [1/0]. *)
Definition division_by_zero : raised :=
  Raised true (Exception "ZeroDivisionError" "division by zero").

(** One unknown, named as given. *)
Definition unknown_named (name : string) : list (string * var_data) :=
  [("g", VarData (PyFloat (FFin (98 # 10))) "m/s^2");
   (name, VarData (PyStr "NaN") "")].

(** A stored record with the given signature. *)
Definition stored (sig : string) : SuccessRecord.t :=
  SuccessRecord.Make (Some sig) [] (Some "x") "" [] "" (Some (PyInt 1))
                     (ExecValid (PyInt 1)) (Valid "x") "" 1 "CSV_R1".

(** A row with no formulas, no ranges and no scenarios. *)
Definition plain_row : row := Row 1 "CSV_R1" ∅ ∅ [].

(** A service that raises at every call of the generation loop, and a disk
    that can be written. *)
Definition silent_world : world :=
  World (fun _ => LlmRaises) (fun _ => "") (fun _ => true).

(** A store file cut short in the middle of its array, on which
    [json.load] raises. *)
Definition truncated_store : disk_file :=
  Unreadable "[{...}, {...}, {" "Expecting property name enclosed in double quotes".

(** A service that answers every call with a problem whose formula id is
    not in the formulas of [plain_row]. *)
Definition stubborn_world : world :=
  World (fun _ =>
           LlmText (Response
             (Some (Candidate "A word problem." ["F9"]
                      [("x", VarData (PyStr "NaN") "m")]))
             "def solve(): return 1.0"
             (returning (PyFloat (FFin 1)))))
        (fun _ => "2025-01-01T00:00:00") (fun _ => true).

(** A service whose third call raises and whose other calls return a text
    that reads, as a problem, as one unknown named after the number of the
    call and, as code, as [def solve(): return 1.0]. *)
Definition busy_world : world :=
  World (fun n =>
           if (n =? 2)%nat then LlmRaises
           else LlmText (Response
                  (Some (Candidate "A word problem." []
                           [("x" +:+ pretty n, VarData (PyStr "NaN") "m")]))
                  "def solve(): return 1.0"
                  (returning (PyFloat (FFin 1)))))
        (fun _ => "2025-01-01T00:00:00") (fun _ => true).

(** ** More data for the examples *)

(** Built-ins whose conversion of an [int] raises [OverflowError] from
    [2^1024] on, as the conversion to a double does (rounding left aside). *)
Definition bounded_builtins : PyBuiltins := {|
  float_of_int z := if (Z.abs z <? 2 ^ 1024)%Z then Some (inject_Z z) else None;
  float_of_str s := (fun z => FFin (inject_Z z)) <$> numeral s;
  str_float := example_str_float
|}.


(** ** What the loop promises of a record *)

(** A record of the row [r] that went through both checks: its signature is
    the signature of its own formula ids and variables; its formula ids are
    formulas of the row; exactly one of its variables is the unknown, the one
    it names; every variable passes the range check; and its result is a
    number that passed the checks of the executor. *)
Definition verified_record `{PyBuiltins} (r : row) (rec : SuccessRecord.t) : Prop :=
  ∃ u x,
    SuccessRecord.signature rec
      = Some (compute_problem_signature
                (Candidate (SuccessRecord.word_problem rec)
                           (SuccessRecord.formula_ids rec)
                           (SuccessRecord.variables rec)))
    ∧ SuccessRecord.unknown_var rec = Some u
    ∧ SuccessRecord.validation_result rec = Valid u
    ∧ nan_vars (SuccessRecord.variables rec) = [u]
    ∧ Forall (λ fid, fid ∈ formula_id_set r) (SuccessRecord.formula_ids rec)
    ∧ Forall (λ kv, within_declared_range (variable_ranges r) kv = true)
             (SuccessRecord.variables rec)
    ∧ SuccessRecord.result rec = Some x
    ∧ SuccessRecord.execution_result rec = ExecValid x
    ∧ finite_number x = true
    ∧ negative x && sign_checked u = false
    ∧ SuccessRecord.Pair_Number rec = Pair_Number r
    ∧ SuccessRecord.source_problem_ID rec = source_problem_ID r.

(** The recent history as the loop keeps it: at most ten entries, with
    pairwise distinct signatures and snippets of at most 140 characters. *)
Definition window_ok (previous_problems : list Previous.t) : Prop :=
  length previous_problems ≤ 10
  ∧ NoDup (Previous.signature <$> previous_problems)
  ∧ Forall (λ p, String.length (Previous.snippet p) ≤ 140) previous_problems.

(** The signatures of the history begin with those of the records of the
    row, the latest first. *)
Definition row_in_window (st : state) : Prop :=
  ∃ older,
    Some <$> (Previous.signature <$> previous_problems st)
    = take 10 (reverse (SuccessRecord.signature <$> per_row_successful st)
               ++ older).


(** The cycles that the counters of the script report as lost. *)
Definition failures (st : state) : nat :=
  duplicates_skipped st + parse_failures st + execution_failures st.

(** ** The formulas of the chapters *)

(** A formula of a chapter file: a dict, with the string under the key
    ['formula_id'] when it has one, and the rest of its content. *)
Record formula : Type := Formula { formula_id : option string; content : string }.

(** A JSON value in the place of a formula: a dict or something else. *)
Inductive item : Type :=
  | NotADict
  | ADict (f : formula).

(** A value of [available_formulas]: a dict of named formulas, a list of
    formulas, or something else. *)
Inductive section : Type :=
  | SubDict (subs : list (string * item))
  | SubList (items : list item)
  | SubOther.

(** The argument of [normalize_available_formula_ids]: a dict, with its keys
    in order, or something else. *)
Inductive formulas : Type :=
  | NoDict
  | TopDict (sections : list (string * section)).

(** [ids.add(fid); by_id[fid] = f] *)
Definition add_formula (fid : string) (f : formula)
    (acc : gset string * gmap string formula) : gset string * gmap string formula :=
  ({[fid]} ∪ acc.1, <[fid := f]> acc.2).

(** The loop over [val.items()] of lines 73-78. *)
Definition scan_dict (subs : list (string * item))
    (acc : gset string * gmap string formula) : gset string * gmap string formula :=
  foldl (fun acc sub =>
           match snd sub with
           | ADict subv =>
               match formula_id subv with
               | Some fid => add_formula fid subv acc
               | None => acc
               end
           | NotADict => acc
           end) acc subs.

(** The loop over [val] of lines 80-85; [if fid] drops a missing and an empty
    id. *)
Definition scan_list (items : list item)
    (acc : gset string * gmap string formula) : gset string * gmap string formula :=
  foldl (fun acc it =>
           match it with
           | ADict f =>
               match formula_id f with
               | Some fid => if String.eqb fid "" then acc else add_formula fid f acc
               | None => acc
               end
           | NotADict => acc
           end) acc items.

Definition normalize_available_formula_ids (available_formulas : formulas)
    : gset string * gmap string formula :=
  match available_formulas with
  | NoDict => (∅, ∅)
  | TopDict sections =>
      foldl (fun acc kv =>
               match snd kv with
               | SubDict subs => scan_dict subs acc
               | SubList items => scan_list items acc
               | SubOther => acc
               end) (∅, ∅) sections
  end.

(** The formulas that the function files, in the order in which it meets
    them, each with the id it is filed under. *)
Definition filed_in (val : section) : list (string * formula) :=
  match val with
  | SubDict subs =>
      omap (fun sub => match snd sub with
                       | ADict f => (fun fid => (fid, f)) <$> formula_id f
                       | NotADict => None
                       end) subs
  | SubList items =>
      omap (fun it => match it with
                      | ADict f =>
                          match formula_id f with
                          | Some fid => if String.eqb fid "" then None
                                        else Some (fid, f)
                          | None => None
                          end
                      | NotADict => None
                      end) items
  | SubOther => []
  end.

Definition filed (available_formulas : formulas) : list (string * formula) :=
  match available_formulas with
  | NoDict => []
  | TopDict sections => mjoin ((fun kv => filed_in (snd kv)) <$> sections)
  end.

(** [d[k] = v] on a dict kept as the list of its items: the value of a key
    that is there is replaced in place, a new key goes to the end. *)
Fixpoint dict_set {V : Type} (k : string) (v : V) (d : list (string * V))
    : list (string * V) :=
  match d with
  | [] => [(k, v)]
  | (k', v') :: d' =>
      if String.eqb k' k then (k, v) :: d' else (k', v') :: dict_set k v d'
  end.

(** [d.get(k)] *)
Fixpoint dict_get {V : Type} (k : string) (d : list (string * V)) : option V :=
  match d with
  | [] => None
  | (k', v') :: d' => if String.eqb k' k then Some v' else dict_get k d'
  end.

(** [d.update(new)] *)
Definition dict_update {V : Type} (d new : list (string * V)) : list (string * V) :=
  foldl (fun d kv => dict_set (fst kv) (snd kv) d) d new.

(** Lines 101-109: the chapters are loaded in turn into [available_formulas].
    [corpus item] is what [update] gets from the file of the chapter [item],
    a JSON object with its keys in order: [None] when the file is missing or
    does not parse. *)
Definition load_chapters (corpus : string -> option (list (string * section)))
    (identified_chapters : list string)
    (available_formulas : list (string * section)) : list (string * section) :=
  foldl (fun available item =>
           match corpus item with
           | Some temp_data => dict_update available temp_data
           | None => available
           end) available_formulas identified_chapters.

(** ** The other helpers *)

(** [format_previous_problems_for_prompt], before [json.dumps]: the list
    [compact] of the signature and the cut snippet of the first [max_items]
    entries. *)
Definition format_previous_problems_for_prompt
    (previous_problems : list Previous.t) (max_items : nat)
    : list (string * string) :=
  (fun p => (Previous.signature p, String.substring 0 140 (Previous.snippet p)))
    <$> take max_items previous_problems.

(** A row that [iterate_csv_pairs] yields: the normalised fields of the CSV
    row and the two derived fields. *)
Module Seed.
Record t : Type := Make {
  fields : gmap string string;
  Pair_Number : Z;
  source_problem_ID : string
}.
End Seed.

(** [row.get(k)] read as a condition: the text under [k] when the key is
    there with a text that is not empty. *)
Definition get_truthy (row : gmap string string) (k : string) : option string :=
  match row !! k with
  | Some EmptyString | None => None
  | Some v => Some v
  end.

Section Csv.
(** [int(s)] for a string: [None] when it raises [ValueError]. *)
Variable int_of_str : string -> option Z.

(** Lines 295-299: the pair number of a row. *)
Definition pair_number (row : gmap string string) (pair_counter : Z) : Z :=
  match get_truthy row "pair_number" with
  | Some s =>
      match int_of_str s with
      | Some pn => pn
      | None => pair_counter
      end
  | None => pair_counter
  end.

(** Lines 304-311: the source id of a row. *)
Definition source_id (row : gmap string string) (pn : Z) : string :=
  match get_truthy row "source_problem_id" with
  | Some s => s
  | None =>
      match get_truthy row "chapter_name", get_truthy row "chapter" with
      | Some chapter, _ | None, Some chapter => chapter +:+ "_R" +:+ pretty pn
      | None, None => "CSV_R" +:+ pretty pn
      end
  end.

(** The loop of [iterate_csv_pairs] over the rows of the reader, once their
    keys are lowered and their texts stripped (a field without text is a
    missing key); the rows it yields, in order. *)
Fixpoint iterate_csv_pairs (rows : list (gmap string string))
    (required_columns : list string) (pair_counter : Z) : list Seed.t :=
  match rows with
  | [] => []
  | row :: rest =>
      let missing :=
        List.filter (fun c => negb (bool_decide (is_Some (get_truthy row c))))
                    required_columns in
      match missing with
      | _ :: _ => iterate_csv_pairs rest required_columns (pair_counter + 1)
      | [] =>
          let pn := pair_number row pair_counter in
          Seed.Make row pn (source_id row pn)
            :: iterate_csv_pairs rest required_columns (pair_counter + 1)
      end
  end.

End Csv.

(** [s.split('```')]: the pieces between the fences, found from the left. *)
Fixpoint split_fence (s : string) : list string :=
  match s with
  | EmptyString => [EmptyString]
  | String c s' =>
      if String.prefix "```" s then
        match s' with
        | String _ (String _ rest) => EmptyString :: split_fence rest
        | _ => []
        end
      else
        match split_fence s' with
        | part :: parts => String c part :: parts
        | [] => [String c EmptyString]
        end
  end.

(** The test of line 136 on a stripped piece. *)
Definition looks_like_code (part_strip : string) : bool :=
  String.prefix "def " part_strip || String.prefix "import" part_strip
  || contains "def solve" part_strip.

Section Sanitize.
(** [str.strip()], a built-in. *)
Variable strip : string -> string.

(** The loop of lines 132-137: the first stripped piece that is not empty
    and looks like code. *)
Fixpoint first_code_part (parts : list string) : option string :=
  match parts with
  | [] => None
  | part :: rest =>
      let part_strip := strip part in
      if String.eqb part_strip "" then first_code_part rest
      else if looks_like_code part_strip then Some part_strip
      else first_code_part rest
  end.

Definition sanitize_code_text (code_text : string) : string :=
  let s := strip code_text in
  if contains "```" s then
    let parts := split_fence s in
    match first_code_part parts with
    | Some part_strip => part_strip
    | None =>
        match parts with
        | _ :: part1 :: _ => strip part1
        | _ => s
        end
    end
  else s.

End Sanitize.

(** The characters that [str.strip()] takes off an ASCII text: the space,
    the controls from tab to carriage return and the four separators. *)
Definition blank (c : ascii) : bool :=
  let n := N_of_ascii c in
  ((9 <=? n) && (n <=? 13) || (28 <=? n) && (n <=? 32))%N.

Fixpoint lstrip (s : string) : string :=
  match s with
  | String c s' => if blank c then lstrip s' else s
  | EmptyString => EmptyString
  end.

Fixpoint rstrip (s : string) : string :=
  match s with
  | String c s' =>
      match rstrip s' with
      | EmptyString => if blank c then EmptyString else String c EmptyString
      | String _ _ as r => String c r
      end
  | EmptyString => EmptyString
  end.

(** [s.strip()] on an ASCII text. *)
Definition strip_blank (s : string) : string := rstrip (lstrip s).

(** ** The reply of the service as JSON *)

(** [s.endswith(x)] *)
Fixpoint endswith (x s : string) : bool :=
  String.eqb x s ||
  match s with
  | String _ s' => endswith x s'
  | EmptyString => false
  end.

(** [s[n:]] *)
Fixpoint drop_front (n : nat) (s : string) : string :=
  match n, s with
  | S n', String _ s' => drop_front n' s'
  | _, _ => s
  end.

(** A text of blanks only. *)
Fixpoint blanks (s : string) : bool :=
  match s with
  | String c s' => blank c && blanks s'
  | EmptyString => true
  end.

Section LlmOp.
Context {A : Type}.
(** [str.strip()] and [json.loads], two built-ins; [json_loads] gives [None]
    when [json.loads] raises. *)
Variable strip : string → string.
Variable json_loads : string → option A.

(** Lines 44-48: the text that goes to [json.loads]. *)
Definition cleaned (s : string) : string :=
  let cleaned := strip s in
  let cleaned :=
    if String.prefix "```json" cleaned then strip (drop_front 7 cleaned)
    else cleaned in
  if endswith "```" cleaned
  then strip (String.substring 0 (String.length cleaned - 3) cleaned)
  else cleaned.

(** [llm_op_to_json] on the text [s] of the reply (lines 40-43): [None] when
    [json.loads] raises, as both [except] clauses return it. *)
Definition llm_op_to_json (s : string) : option A := json_loads (cleaned s).

End LlmOp.

(** ** Formula ids that keep signatures apart *)

(** A formula id that is not empty and holds neither a comma nor a closing
    bracket, the two characters that delimit the ids in a signature. *)
Definition plain_id (fid : string) : bool :=
  negb (String.eqb fid "") && negb (contains "," fid) && negb (contains "]" fid).

(** ** Strings and sorting *)

Lemma Sorted_sorted l : Sorted String.le (sorted l).
Proof. apply (Sorted_merge_sort String.le). Qed.

Lemma sorted_Permutation l : sorted l ≡ₚ l.
Proof. apply (merge_sort_Permutation String.le). Qed.

(** Two lists with the same elements sort to the same list. *)
Lemma sorted_unique l1 l2 : l1 ≡ₚ l2 → sorted l1 = sorted l2.
Proof.
  intros Hp. apply (Sorted_unique String.le); auto using Sorted_sorted.
  by rewrite !sorted_Permutation.
Qed.

Lemma first_unknown_head vars : first_unknown vars = head (nan_vars vars).
Proof.
  unfold nan_vars. induction vars as [|[k v] vars IH]; simpl; [done|].
  by destruct (is_nan (value v)).
Qed.

(** ** The signature *)

(** C4. The signature of a candidate is ["fids=["], the formula ids sorted
    in string order and joined by commas, ["]|unknown="], and the name of the
    first variable that carries the sentinel (the text [None] when there is
    none); it is the same for two candidates whose formula ids are a
    permutation of one another and whose unknown is the same, and differs
    when the formula ids are the same up to order (or are two lists without
    repetition that hold the same ids) and the unknown variables have
    different names. *)
Theorem signature_canonical :
  (∀ c, ∃ s, Sorted String.le s ∧ s ≡ₚ formula_ids c ∧
     compute_problem_signature c =
       "fids=[" +:+ join "," s +:+ "]|unknown="
         +:+ str_option (head (nan_vars (variables c)))) ∧
  (∀ c1 c2, formula_ids c1 ≡ₚ formula_ids c2 →
     head (nan_vars (variables c1)) = head (nan_vars (variables c2)) →
     compute_problem_signature c1 = compute_problem_signature c2) ∧
  (∀ c1 c2 u1 u2,
     formula_ids c1 ≡ₚ formula_ids c2
     ∨ (NoDup (formula_ids c1) ∧ NoDup (formula_ids c2)
        ∧ ∀ fid, fid ∈ formula_ids c1 ↔ fid ∈ formula_ids c2) →
     head (nan_vars (variables c1)) = Some u1 →
     head (nan_vars (variables c2)) = Some u2 →
     u1 ≠ u2 →
     compute_problem_signature c1 ≠ compute_problem_signature c2).
Proof.
  split_and!.
  - intros c. exists (sorted (formula_ids c)).
    split_and!; [apply Sorted_sorted | apply sorted_Permutation |].
    unfold compute_problem_signature. by rewrite first_unknown_head.
  - intros c1 c2 Hp Hu. unfold compute_problem_signature.
    by rewrite !first_unknown_head, Hu, (sorted_unique _ _ Hp).
  - intros c1 c2 u1 u2 Hp H1 H2 Hne.
    assert (formula_ids c1 ≡ₚ formula_ids c2) as Hp'.
    { destruct Hp as [Hp|(Hn1 & Hn2 & Hel)]; [done|by apply NoDup_Permutation]. }
    clear Hp. rename Hp' into Hp. unfold compute_problem_signature.
    rewrite !first_unknown_head, H1, H2, (sorted_unique _ _ Hp). simpl.
    intros Heq. apply Hne.
    repeat apply String.app_inj in Heq. done.
Qed.

Lemma signature_canonical_witness :
  compute_problem_signature (Candidate "a" ["F2"; "F1"] scenario_variables)
  = compute_problem_signature (Candidate "b" ["F1"; "F2"] scenario_variables)
  ∧ compute_problem_signature (Candidate "a" ["F2"; "F1"] scenario_variables)
  ≠ compute_problem_signature
      (Candidate "a" ["F1"; "F2"] [("mass", VarData (PyFloat FNaN) "kg")]).
Proof.
  destruct signature_canonical as (_ & Hperm & Hsens). split.
  - apply Hperm; [apply perm_swap | reflexivity].
  - apply (Hsens _ _ "acceleration" "mass");
      [left; apply perm_swap | reflexivity | reflexivity | discriminate].
Defined.

Example signature_scenario :
  compute_problem_signature (Candidate "" ["F1"; "F2"] scenario_variables)
  = "fids=[F1,F2]|unknown=acceleration".
Proof. reflexivity. Qed.

(** ** The validator *)

Section ValidatorFacts.
Context `{PyBuiltins}.

Lemma all_known_true (formula_dict : gset string) (fids : list string) :
  Forall (λ fid, fid ∈ formula_dict) fids →
  forallb (fun fid => bool_decide (fid ∈ formula_dict)) fids = true.
Proof.
  intros Hall. apply forallb_forall. intros fid Hin.
  apply bool_decide_eq_true. rewrite Forall_forall in Hall.
  apply Hall. by apply list_elem_of_In.
Qed.

Lemma check_ranges_accepts variable_ranges vars :
  Forall (λ kv, within_declared_range variable_ranges kv = true) vars →
  check_ranges variable_ranges vars = Ret None.
Proof.
  induction 1 as [|[k v] vars Hkv _ IH]; simpl; [done|].
  unfold within_declared_range in Hkv. simpl in Hkv.
  destruct (is_nan (value v)); [done|]. simpl in Hkv.
  destruct (variable_ranges !! k) as [[[[|a [|b [|c rr]]]|]]|]; try done.
  destruct (py_float (value v)); try done. by rewrite Hkv.
Qed.

(** The loop skips a prefix of entries that pass. *)
Lemma check_ranges_skip variable_ranges pre vars :
  Forall (λ kv, within_declared_range variable_ranges kv = true) pre →
  check_ranges variable_ranges (pre ++ vars) = check_ranges variable_ranges vars.
Proof.
  induction 1 as [|[k v] pre Hkv _ IH]; simpl; [done|].
  unfold within_declared_range in Hkv. simpl in Hkv.
  destruct (is_nan (value v)); [done|]. simpl in Hkv.
  destruct (variable_ranges !! k) as [[[[|a [|b [|c rr]]]|]]|]; try done.
  destruct (py_float (value v)); try done. by rewrite Hkv.
Qed.

Lemma validate_problem_known output formula_dict variable_ranges previous_problems :
  Forall (λ fid, fid ∈ formula_dict) (formula_ids output) →
  validate_problem output formula_dict variable_ranges previous_problems =
    if negb (length (nan_vars (variables output)) =? 1)%nat
    then Ret (Invalid ("Must have exactly 1 unknown, found "
                         +:+ pretty (length (nan_vars (variables output)))))
    else
      match check_ranges variable_ranges (variables output) with
      | Exc e => Exc e
      | Ret (Some error) => Ret (Invalid error)
      | Ret None =>
          if signature_seen (compute_problem_signature output) previous_problems
          then Ret (Invalid "Duplicate problem signature")
          else Ret (Valid (hd "" (nan_vars (variables output))))
      end.
Proof. intros Hk. unfold validate_problem. by rewrite all_known_true. Qed.

(** A candidate is declared valid only with exactly one unknown. *)
Lemma validate_problem_valid output formula_dict variable_ranges previous_problems u :
  validate_problem output formula_dict variable_ranges previous_problems
    = Ret (Valid u) →
  nan_vars (variables output) = [u].
Proof.
  unfold validate_problem. intros Hv.
  destruct (forallb _ _); [|done]. simpl in Hv.
  destruct (nan_vars (variables output)) as [|k [|k' l]]; simpl in Hv; [done| |done].
  destruct (check_ranges _ _) as [[e|]|]; [done| |done].
  destruct (signature_seen _ _); [done|]. by simplify_eq.
Qed.

End ValidatorFacts.

(** C6. A candidate one of whose formula ids is not in the known set is
    rejected with the error ["Invalid formula_id"], whatever its other
    formula ids, its variables, the ranges and the history are: the check
    comes first. *)
Theorem invalid_formula_id_first `{PyBuiltins} (output : candidate)
    (formula_dict : gset string) (variable_ranges : gmap string var_range)
    (previous_problems : list Previous.t) (fid : string) :
  fid ∈ formula_ids output →
  fid ∉ formula_dict →
  validate_problem output formula_dict variable_ranges previous_problems
    = Ret (Invalid "Invalid formula_id").
Proof.
  intros Hin Hnot. unfold validate_problem.
  destruct (forallb _ _) eqn:Hall; [|done].
  rewrite forallb_forall in Hall.
  apply list_elem_of_In, Hall, bool_decide_eq_true in Hin. done.
Qed.

Lemma invalid_formula_id_first_witness :
  validate_problem (Candidate "" ["F1"; "F9"; "F2"] scenario_variables)
                   known_F1_F2 mass_range []
    = Ret (Invalid "Invalid formula_id").
Proof.
  apply (invalid_formula_id_first _ _ _ _ "F9").
  - apply (bool_decide_unpack _). vm_compute. exact I.
  - apply (bool_decide_unpack _). vm_compute. exact I.
Defined.

(** C1, as the code has it.  The sentinel is a value whose [str()] lowers to
    ['nan'].  A candidate is declared valid only when exactly one entry
    carries it.  When every formula id is known: a count [n] other than 1 is
    rejected with ["Must have exactly 1 unknown, found n"]; with exactly one
    unknown, the candidate is valid, with that entry as [unknown_var], as
    soon as every entry passes the range check and the signature is not in the
    history. *)
Theorem validate_unknown_count `{PyBuiltins} (output : candidate)
    (formula_dict : gset string) (variable_ranges : gmap string var_range)
    (previous_problems : list Previous.t) :
  (∀ u, validate_problem output formula_dict variable_ranges previous_problems
          = Ret (Valid u) →
        nan_vars (variables output) = [u]) ∧
  (Forall (λ fid, fid ∈ formula_dict) (formula_ids output) →
   (length (nan_vars (variables output)) ≠ 1 →
    validate_problem output formula_dict variable_ranges previous_problems
      = Ret (Invalid ("Must have exactly 1 unknown, found "
                        +:+ pretty (length (nan_vars (variables output)))))) ∧
   (∀ u, nan_vars (variables output) = [u] →
      Forall (λ kv, within_declared_range variable_ranges kv = true)
             (variables output) →
      signature_seen (compute_problem_signature output) previous_problems
        = false →
      validate_problem output formula_dict variable_ranges previous_problems
        = Ret (Valid u))).
Proof.
  split; [intros u; apply validate_problem_valid|].
  intros Hk. rewrite (validate_problem_known _ _ _ _ Hk). split.
  - intros Hn. by apply Nat.eqb_neq in Hn as ->.
  - intros u Hu Hr Hs. rewrite Hu, (check_ranges_accepts _ _ Hr), Hs. done.
Qed.

Lemma validate_unknown_count_witness :
  validate_problem (Candidate "" ["F1"; "F2"] scenario_variables)
                   known_F1_F2 mass_range []
    = Ret (Valid "acceleration")
  ∧ validate_problem (Candidate "" ["F1"; "F2"] scenario_variables_unknown)
                     known_F1_F2 mass_range []
    = Ret (Invalid "Must have exactly 1 unknown, found 0").
Proof.
  split.
  - apply validate_unknown_count.
    + apply (bool_decide_unpack _). vm_compute. exact I.
    + reflexivity.
    + apply (bool_decide_unpack _). vm_compute. exact I.
    + reflexivity.
  - apply (validate_unknown_count
             (Candidate "" ["F1"; "F2"] scenario_variables_unknown)).
    + apply (bool_decide_unpack _). vm_compute. exact I.
    + simpl. lia.
Defined.

(** C1 as it is stated fails twice.  A map with exactly one unknown is
    rejected when another check fails, here the range of [mass]; and the map
    of the scenario, with the text ["unknown"] as the value, has no unknown
    for the code, which looks for ['nan']. *)
Lemma validate_one_unknown_rejected :
  nan_vars heavy_variables = ["acceleration"]
  ∧ validate_problem (Candidate "" ["F1"; "F2"] heavy_variables)
                     known_F1_F2 mass_range []
    = Ret (Invalid "mass with value 400.0 is out of expected range [1, 10].")
  ∧ validate_problem (Candidate "" ["F1"; "F2"] scenario_variables_unknown)
                     known_F1_F2 mass_range []
    = Ret (Invalid "Must have exactly 1 unknown, found 0").
Proof. split_and!; vm_compute; reflexivity. Qed.

(** C7, as the code has it.  Take a candidate whose formula ids are known and
    which has exactly one unknown, and an entry that is not the unknown, for
    whose name a two-element range [[min, max]] is declared, after entries
    that all pass.  When its value does not convert to a float
    ([ValueError] or [TypeError]) the candidate is rejected with the error
    that names the variable and the value; when it converts to a float
    outside [[min, max]] the candidate is rejected with the error that names
    the variable, the float and both bounds.  When every entry passes and the
    signature is new the candidate is valid; and the bounds themselves are
    inside the range. *)
Theorem range_check `{PyBuiltins} (output : candidate)
    (formula_dict : gset string) (variable_ranges : gmap string var_range)
    (previous_problems : list Previous.t) :
  Forall (λ fid, fid ∈ formula_dict) (formula_ids output) →
  length (nan_vars (variables output)) = 1 →
  (∀ pre var_name var_data post range_min range_max,
     variables output = pre ++ (var_name, var_data) :: post →
     Forall (λ kv, within_declared_range variable_ranges kv = true) pre →
     is_nan (value var_data) = false →
     variable_ranges !! var_name = Some (VarRange (Some [range_min; range_max])) →
     (py_float (value var_data) = FloatValueError
      ∨ py_float (value var_data) = FloatTypeError →
      validate_problem output formula_dict variable_ranges previous_problems
        = Ret (Invalid (invalid_value_error var_name (value var_data)))) ∧
     (∀ actual_value,
        py_float (value var_data) = FloatOk actual_value →
        in_range range_min range_max actual_value = false →
        validate_problem output formula_dict variable_ranges previous_problems
          = Ret (Invalid (out_of_range_error var_name actual_value
                            range_min range_max)))) ∧
  (Forall (λ kv, within_declared_range variable_ranges kv = true)
          (variables output) →
   signature_seen (compute_problem_signature output) previous_problems = false →
   validate_problem output formula_dict variable_ranges previous_problems
     = Ret (Valid (hd "" (nan_vars (variables output))))) ∧
  (∀ range_min range_max,
     float_le (num_float range_min) (num_float range_max) = true →
     in_range range_min range_max (num_float range_min) = true
     ∧ in_range range_min range_max (num_float range_max) = true).
Proof.
  intros Hk Hn. rewrite (validate_problem_known _ _ _ _ Hk), Hn. simpl.
  split_and!.
  - intros pre var_name var_data post range_min range_max Hv Hpre Hnan Hr.
    rewrite Hv, (check_ranges_skip _ _ _ Hpre). simpl. rewrite Hnan, Hr.
    split.
    + by intros [-> | ->].
    + by intros actual_value -> ->.
  - intros Hall Hs. by rewrite (check_ranges_accepts _ _ Hall), Hs.
  - intros range_min range_max Hle. unfold in_range. rewrite Hle.
    destruct (num_float range_min) as [|[]|p], (num_float range_max) as [|[]|q];
      simpl in *; try done; rewrite ?andb_true_r;
      split; try done; apply Qle_bool_iff, Qle_refl.
Qed.

Lemma range_check_witness :
  validate_problem (Candidate "" ["F1"; "F2"] heavy_variables)
                   known_F1_F2 mass_range []
    = Ret (Invalid (out_of_range_error "mass" (FFin 400) (NInt 1) (NInt 10)))
  ∧ in_range (NInt 1) (NInt 10) (FFin 10) = true.
Proof.
  assert (Hk : Forall (λ fid, fid ∈ known_F1_F2) ["F1"; "F2"]).
  { apply (bool_decide_unpack _). vm_compute. exact I. }
  destruct (range_check (Candidate "" ["F1"; "F2"] heavy_variables)
              known_F1_F2 mass_range [] Hk eq_refl) as (Hrej & _ & Hb).
  split.
  - apply (Hrej [] "mass" (VarData (PyInt 400) "kg")
                [("acceleration", VarData (PyStr "NaN") "m/s^2")]
                (NInt 1) (NInt 10));
      [reflexivity | constructor | reflexivity | reflexivity | reflexivity
      | reflexivity].
  - apply (Hb (NInt 1) (NInt 10)). reflexivity.
Defined.

(** C7 as it is stated fails for a name that is present in
    [variable_ranges] with an entry that declares no two-element range: the
    value is then not looked at. *)
Lemma range_check_needs_declared_range :
  is_Some (mass_without_range !! "mass")
  ∧ py_float (PyStr "heavy") = FloatValueError
  ∧ validate_problem (Candidate "" ["F1"; "F2"] worded_variables)
                     known_F1_F2 mass_without_range []
    = Ret (Valid "acceleration").
Proof. split_and!; [by eexists | reflexivity | vm_compute; reflexivity]. Qed.

(** ** The executor *)

(** C3, as the code has it.  An [Exception] raised while the code is executed
    or while [solve] is called gives ["Execution failed: <message>"]; code
    that runs and leaves no callable [solve] gives
    ["'solve()' function not found"]; a returned [None] or string gives
    ["Invalid return type"]; NaN or an infinity gives ["Result is NaN or
    Inf"]; a [bool], an [int] that converts to a float, or a finite float
    gives ["Negative value for <name>"], with the result kept, when it is
    negative and the name of the first unknown contains one of the six tokens,
    and [{valid: True, result}] otherwise. *)
Theorem execute_outcomes `{PyBuiltins} (variables : list (string * var_data)) :
  (∀ e, derives_Exception e = true →
     execute_and_validate_in_repl (ExecRaises e) variables
       = Ret (ExecInvalid ("Execution failed: " +:+ exc_msg (error_of e)) None)
     ∧ execute_and_validate_in_repl
         (ExecDefines (Some (Callable (SolveRaises e)))) variables
       = Ret (ExecInvalid ("Execution failed: " +:+ exc_msg (error_of e)) None)) ∧
  (∀ solve, solve = None ∨ solve = Some NotCallable →
     execute_and_validate_in_repl (ExecDefines solve) variables
       = Ret (ExecInvalid "'solve()' function not found" None)) ∧
  (∀ result, result = PyNone ∨ (∃ s, result = PyStr s) →
     execute_and_validate_in_repl (returning result) variables
       = Ret (ExecInvalid "Invalid return type" None)) ∧
  (∀ result, result = PyFloat FNaN ∨ (∃ negative, result = PyFloat (FInf negative)) →
     execute_and_validate_in_repl (returning result) variables
       = Ret (ExecInvalid "Result is NaN or Inf" None)) ∧
  (∀ result, finite_number result = true →
     execute_and_validate_in_repl (returning result) variables =
       match nan_vars variables with
       | unknown_var :: _ =>
           if negative result && sign_checked unknown_var
           then Ret (ExecInvalid ("Negative value for " +:+ unknown_var)
                                 (Some result))
           else Ret (ExecValid result)
       | [] => Ret (ExecValid result)
       end).
Proof.
  split_and!.
  - intros e He. simpl. unfold execution_failed. by rewrite He.
  - by intros solve [-> | ->].
  - by intros result [-> | [s ->]].
  - by intros result [-> | [negative ->]].
  - intros result Hf. simpl. unfold check_result.
    destruct result as [|b|z|[|negative|q]|s]; simpl in Hf; try done.
    simpl. apply bool_decide_eq_true in Hf as [q ->]. done.
Qed.

Lemma execute_outcomes_witness :
  execute_and_validate_in_repl (returning (PyInt (-5))) (unknown_named "distance")
    = Ret (ExecInvalid "Negative value for distance" (Some (PyInt (-5))))
  ∧ execute_and_validate_in_repl (returning (PyInt (-5))) (unknown_named "charge")
    = Ret (ExecValid (PyInt (-5)))
  ∧ execute_and_validate_in_repl (returning (PyFloat (FFin (-32 # 10))))
                                 (unknown_named "Time")
    = Ret (ExecInvalid "Negative value for Time"
                       (Some (PyFloat (FFin (-32 # 10)))))
  ∧ execute_and_validate_in_repl
      (ExecDefines (Some (Callable (SolveRaises division_by_zero)))) []
    = Ret (ExecInvalid "Execution failed: division by zero" None).
Proof.
  split_and!.
  - destruct (execute_outcomes (unknown_named "distance")) as (_ & _ & _ & _ & Hfin).
    apply (Hfin (PyInt (-5))). reflexivity.
  - destruct (execute_outcomes (unknown_named "charge")) as (_ & _ & _ & _ & Hfin).
    apply (Hfin (PyInt (-5))). reflexivity.
  - destruct (execute_outcomes (unknown_named "Time")) as (_ & _ & _ & _ & Hfin).
    apply (Hfin (PyFloat (FFin (-32 # 10)))). reflexivity.
  - destruct (execute_outcomes []) as (Hexc & _).
    apply (Hexc division_by_zero). reflexivity.
Defined.

(** C3 as it is stated fails for code that raises while it is executed, such
    as the one line [x = 1/0]: it defines no callable [solve], and the error
    is ["Execution failed: division by zero"], not
    ["'solve()' function not found"]. *)
Lemma execute_raising_module :
  execute_and_validate_in_repl (ExecRaises division_by_zero) []
    = Ret (ExecInvalid "Execution failed: division by zero" None)
  ∧ execute_and_validate_in_repl (ExecRaises division_by_zero) []
    ≠ Ret (ExecInvalid "'solve()' function not found" None).
Proof. split; [reflexivity | discriminate]. Qed.

(** C10. Code whose [solve] returns [True] or [False] passes the type check:
    the result is [{valid: True, result: <the boolean>}], whatever the
    variables are (a boolean is never negative). *)
Theorem execute_accepts_bool `{PyBuiltins} (b : bool)
    (variables : list (string * var_data)) :
  execute_and_validate_in_repl (returning (PyBool b)) variables
    = Ret (ExecValid (PyBool b)).
Proof.
  simpl. unfold check_result. simpl. by destruct (nan_vars variables).
Qed.

(** ** The durable store *)

Lemma signatures_of_snoc recs rec sig :
  truthy (SuccessRecord.signature rec) = Some sig →
  signatures_of (recs ++ [rec]) = {[sig]} ∪ signatures_of recs.
Proof.
  intros Hs. unfold signatures_of.
  rewrite omap_app, list_to_set_app_L. simpl. rewrite Hs. simpl.
  by rewrite (right_id_L ∅ (∪)), (comm_L (∪)).
Qed.

Lemma truthy_Some sig s : truthy sig = Some s → sig = Some s.
Proof. destruct sig as [[|c s']|]; simpl; congruence. Qed.

Lemma elem_of_signatures_of recs s :
  s ∈ signatures_of recs ↔
  ∃ r, r ∈ recs ∧ truthy (SuccessRecord.signature r) = Some s.
Proof.
  unfold signatures_of. rewrite elem_of_list_to_set, list_elem_of_omap.
  naive_solver.
Qed.

(** The merge keeps the set equal to the signatures of the list, appends
    records of the new list only, each with a signature that the store did
    not have, and keeps the signatures distinct. *)
Lemma merge_records_spec new recs :
  ∃ added,
    merge_records new recs (signatures_of recs)
      = (recs ++ added, signatures_of (recs ++ added))
    ∧ added `sublist_of` new
    ∧ Forall (λ r, ∃ sig, SuccessRecord.signature r = Some sig
                          ∧ Some sig ∉ SuccessRecord.signature <$> recs) added
    ∧ (NoDup (SuccessRecord.signature <$> recs) →
       NoDup (SuccessRecord.signature <$> (recs ++ added))).
Proof.
  revert recs. induction new as [|rec new IH]; intros recs; simpl.
  { exists []. rewrite app_nil_r. split_and!; [done|done|constructor|done]. }
  destruct (truthy (SuccessRecord.signature rec)) as [sig|] eqn:Hsig.
  2:{ destruct (IH recs) as (added & -> & Hsub & Hall & Hnd).
      exists added. split_and!; [done|by apply sublist_cons|done|done]. }
  case_bool_decide as Hin.
  2:{ destruct (IH recs) as (added & -> & Hsub & Hall & Hnd).
      exists added. split_and!; [done|by apply sublist_cons|done|done]. }
  assert (Hfresh : Some sig ∉ SuccessRecord.signature <$> recs).
  { intros (r & Hr & Hel)%list_elem_of_fmap. apply Hin.
    apply elem_of_signatures_of. exists r. split; [done|].
    pose proof (truthy_Some _ _ Hsig) as Hs. rewrite Hs in Hsig.
    by rewrite <- Hr. }
  rewrite <- (signatures_of_snoc _ _ _ Hsig).
  destruct (IH (recs ++ [rec])) as (added & -> & Hsub & Hall & Hnd).
  exists (rec :: added). rewrite <- !app_assoc. simpl.
  split_and!; [done|by apply sublist_skip| |].
  - constructor; [exists sig; eauto using truthy_Some|].
    eapply Forall_impl; [exact Hall|]. intros r (s & Hs & Hn).
    exists s. split; [done|]. intros Hel. apply Hn.
    rewrite fmap_app. apply elem_of_app. by left.
  - intros Hrecs. rewrite <- app_assoc in Hnd. apply Hnd.
    rewrite fmap_app. apply NoDup_app. split_and!; [done| |apply NoDup_singleton].
    intros x Hx Hx'. simpl in Hx'. apply list_elem_of_singleton in Hx'.
    subst x. apply Hfresh. by rewrite <- (truthy_Some _ _ Hsig).
Qed.

(** After a merge the set holds every usable signature of the merged
    list. *)
Lemma merge_records_covers new recs sigs :
  sigs ⊆ (merge_records new recs sigs).2
  ∧ ∀ r s, r ∈ new → truthy (SuccessRecord.signature r) = Some s →
           s ∈ (merge_records new recs sigs).2.
Proof.
  revert recs sigs. induction new as [|rec new IH]; intros recs sigs; simpl.
  { split; [done|]. intros r s Hr. by apply elem_of_nil in Hr. }
  destruct (truthy (SuccessRecord.signature rec)) as [sig|] eqn:Hsig.
  - case_bool_decide as Hin.
    + destruct (IH (recs ++ [rec]) ({[sig]} ∪ sigs)) as [Hsub Hcov].
      split; [by etrans; [apply union_subseteq_r|exact Hsub]|].
      intros r s [->|Hr]%elem_of_cons Hs; [|by eauto].
      apply Hsub. rewrite Hsig in Hs. simplify_eq.
      by apply elem_of_union_l, elem_of_singleton.
    + destruct (IH recs sigs) as [Hsub Hcov].
      split; [done|]. intros r s [->|Hr]%elem_of_cons Hs; [|by eauto].
      apply Hsub. rewrite Hsig in Hs. by simplify_eq.
  - destruct (IH recs sigs) as [Hsub Hcov].
    split; [done|]. intros r s [->|Hr]%elem_of_cons Hs; [|by eauto].
    congruence.
Qed.

(** Nothing is appended from a list whose signatures are all in the set. *)
Lemma merge_records_known new recs sigs :
  (∀ r s, r ∈ new → truthy (SuccessRecord.signature r) = Some s → s ∈ sigs) →
  merge_records new recs sigs = (recs, sigs).
Proof.
  induction new as [|rec new IH]; intros Hall; simpl; [done|].
  destruct (truthy (SuccessRecord.signature rec)) as [sig|] eqn:Hsig.
  - rewrite bool_decide_eq_false_2.
    + apply IH. intros r s Hr. apply Hall. by right.
    + intros Hn. apply Hn, (Hall rec); [by left|done].
  - apply IH. intros r s Hr. apply Hall. by right.
Qed.

(** C5. Merging a list of new records into a store whose signatures are
    pairwise distinct appends only records of that list whose signature the
    store did not have, leaves the signatures pairwise distinct, and merging
    the same list again changes nothing, so the size stays the same. *)
Theorem merge_idempotent_unique (existing per_row_successful : list SuccessRecord.t) :
  NoDup (SuccessRecord.signature <$> existing) →
  let merged := merge_records per_row_successful existing (signatures_of existing) in
  (∃ added, merged.1 = existing ++ added
            ∧ added `sublist_of` per_row_successful
            ∧ Forall (λ r, ∃ sig, SuccessRecord.signature r = Some sig
                           ∧ Some sig ∉ SuccessRecord.signature <$> existing)
                     added)
  ∧ NoDup (SuccessRecord.signature <$> merged.1)
  ∧ merge_records per_row_successful merged.1 merged.2 = merged
  ∧ length (merge_records per_row_successful merged.1 merged.2).1
    = length merged.1.
Proof.
  intros Hnd merged.
  destruct (merge_records_spec per_row_successful existing)
    as (added & Hm & Hsub & Hall & Hnd').
  assert (Hidem : merge_records per_row_successful merged.1 merged.2 = merged).
  { rewrite (merge_records_known _ merged.1 merged.2); [by destruct merged|].
    intros r s Hr Hs.
    by apply (merge_records_covers per_row_successful existing
                (signatures_of existing)) with r. }
  split_and!.
  - exists added. subst merged. rewrite Hm. done.
  - subst merged. rewrite Hm. simpl. auto.
  - done.
  - by rewrite Hidem.
Qed.

Lemma merge_idempotent_unique_witness :
  NoDup (SuccessRecord.signature
           <$> (merge_records [stored "s1"; stored "s2"; stored "s2"]
                  [stored "s1"] (signatures_of [stored "s1"])).1)
  ∧ (merge_records [stored "s1"; stored "s2"; stored "s2"]
       [stored "s1"] (signatures_of [stored "s1"])).1
    = [stored "s1"; stored "s2"].
Proof.
  split; [|reflexivity].
  apply (merge_idempotent_unique [stored "s1"]
           [stored "s1"; stored "s2"; stored "s2"]).
  apply (bool_decide_unpack _). vm_compute. exact I.
Defined.

(** ** The main loop *)

Section OrchestratorFacts.
Context `{PyBuiltins} (w : world) (r : row).

#[local] Arguments validate_problem : simpl never.
#[local] Arguments execute_and_validate_in_repl : simpl never.
#[local] Arguments compute_problem_signature : simpl never.
#[local] Arguments signature_seen : simpl never.
#[local] Arguments String.substring : simpl never.
#[local] Arguments take : simpl never.

(** Runs a cycle along each of its paths: one case for each reply of the
    service and for each result of a validation or an execution. *)
Ltac run_cycle :=
  unfold cycle, generate, validated, executed, record, validate, execute,
    generate_content, emit, modify, gets, continue, call,
    mbind, M_bind, mret, M_ret;
  simpl;
  repeat (match goal with
          | |- context [llm ?w ?n] =>
              destruct (llm w n) as [|?] eqn:?; simpl
          | |- context [parsed ?t] =>
              destruct (parsed t) as [?|] eqn:?; simpl
          | |- context [validate_problem ?a ?b ?c ?d] =>
              destruct (validate_problem a b c d) as [[?|?]|?] eqn:?; simpl
          | |- context [execute_and_validate_in_repl ?a ?b] =>
              destruct (execute_and_validate_in_repl a b) as [[? ?|?]|?] eqn:?;
              simpl
          | |- context [signature_seen ?a ?b] =>
              destruct (signature_seen a b) eqn:?; simpl
          end).

(** Looks for an event in a list of events that is known. *)
Ltac find_event pre :=
  repeat (destruct pre as [|? pre]; simplify_eq/=).

(** Gives the events before the last one of a list that is known. *)
Ltac exists_prefix :=
  first [ by eexists [] | by eexists [_] | by eexists [_; _]
        | by eexists [_; _; _] | by eexists [_; _; _; _]
        | by eexists [_; _; _; _; _] | by eexists [_; _; _; _; _; _]
        | by eexists [], _ | by eexists [_], _ | by eexists [_; _], _
        | by eexists [_; _; _], _ | by eexists [_; _; _; _], _
        | by eexists [_; _; _; _; _], _ | by eexists [_; _; _; _; _; _], _ ].

(** What a cycle leaves alone, and what it adds: one to the count of
    cycles, at most one record. *)
Lemma cycle_frame st :
  let st' := (cycle w r st).1 in
  existing_records st' = existing_records st
  ∧ existing_signatures st' = existing_signatures st
  ∧ disk st' = disk st
  ∧ warnings st' = warnings st
  ∧ scenario_idx st' = scenario_idx st
  ∧ current_iteration st' = current_iteration st
  ∧ total_cycles_attempted st' = S (total_cycles_attempted st)
  ∧ ∃ added, per_row_successful st' = per_row_successful st ++ added
             ∧ length added ≤ 1.
Proof.
  run_cycle; split_and!; try reflexivity;
    first [ by exists []; rewrite app_nil_r; auto
          | by eexists [_]; auto ].
Qed.

(** A pass of the [while] body: one more iteration, at most two cycles and
    at most two records. *)
Lemma iteration_frame st :
  let st' := (iteration w r st).1 in
  existing_records st' = existing_records st
  ∧ existing_signatures st' = existing_signatures st
  ∧ disk st' = disk st
  ∧ warnings st' = warnings st
  ∧ current_iteration st' = S (current_iteration st)
  ∧ total_cycles_attempted st' ≤ total_cycles_attempted st + 2
  ∧ length (per_row_successful st') ≤ length (per_row_successful st) + 2.
Proof.
  unfold iteration, body, modify, mbind, M_bind. simpl.
  match goal with |- context [cycle w r ?st1] =>
    pose proof (cycle_frame st1) as (E1 & E2 & E3 & E4 & _ & E5 & E6 & a1 & E7 & L1);
    destruct (cycle w r st1) as [st2 [[]| |e]]
  end; simpl in *.
  3:{ rewrite E1, E2, E3, E4, E5, E6, E7, length_app. split_and!; try done; lia. }
  all: pose proof (cycle_frame st2) as (F1 & F2 & F3 & F4 & _ & F5 & F6 & a2 & F7 & L2);
    destruct (cycle w r st2) as [st3 [[]| |e]]; simpl in *;
    rewrite F1, F2, F3, F4, F5, F6, F7, E1, E2, E3, E4, E5, E6, E7, !length_app;
    split_and!; try done; lia.
Qed.

Lemma iterations_frame target remaining st :
  let st' := (iterations w target r remaining st).1 in
  existing_records st' = existing_records st
  ∧ existing_signatures st' = existing_signatures st
  ∧ disk st' = disk st
  ∧ warnings st' = warnings st
  ∧ current_iteration st ≤ current_iteration st'
  ∧ current_iteration st' ≤ current_iteration st + remaining
  ∧ total_cycles_attempted st'
    ≤ total_cycles_attempted st + 2 * (current_iteration st' - current_iteration st)
  ∧ length (per_row_successful st')
    ≤ length (per_row_successful st) `max` (target + 1).
Proof.
  revert st. induction remaining as [|remaining IH]; intros st; simpl.
  { split_and!; try done; lia. }
  unfold mbind, M_bind, gets. simpl.
  destruct (length (per_row_successful st) <? target)%nat eqn:Hlt; simpl.
  2:{ split_and!; try done; lia. }
  apply Nat.ltb_lt in Hlt.
  pose proof (iteration_frame st) as (E1 & E2 & E3 & E4 & E5 & E6 & E7).
  destruct (iteration w r st) as [st1 [[]| |e]]; simpl in *.
  2,3: rewrite E5; split_and!; try done; lia.
  pose proof (IH st1) as (F1 & F2 & F3 & F4 & F5 & F6 & F7 & F8).
  simpl in *. rewrite F1, F2, F3, F4.
  split_and!; try done; lia.
Qed.

(** The loop ends normally only when the condition of the [while] is
    false. *)
Lemma iterations_exit target remaining st :
  (iterations w target r remaining st).2 = Normal () →
  current_iteration (iterations w target r remaining st).1
    = current_iteration st + remaining
  ∨ target ≤ length (per_row_successful (iterations w target r remaining st).1).
Proof.
  revert st. induction remaining as [|remaining IH]; intros st; simpl.
  { left. lia. }
  unfold mbind, M_bind, gets. simpl.
  destruct (length (per_row_successful st) <? target)%nat eqn:Hlt; simpl.
  2:{ right. by apply Nat.ltb_ge in Hlt. }
  pose proof (iteration_frame st) as (_ & _ & _ & _ & E5 & _).
  destruct (iteration w r st) as [st1 [[]| |e]]; simpl in *; try done.
  intros Hn. destruct (IH st1 Hn) as [Hc|Hl]; [left|by right].
  rewrite Hc, E5. lia.
Qed.

(** C2. In every cycle each stage retries at most once.  The events of a
    cycle hold at most two validations and two executions, and at most one
    prompt from each of the three retry places.  A first validation that
    fails with an error is followed at once by the retry prompt of Call2 that
    carries this error, and that prompt occurs nowhere else; a second
    validation that fails ends the cycle, with no record appended.  The same
    holds of executions and the retry prompt of Call3. *)
Theorem retry_once (st : state) :
  ∃ events,
    trace (cycle w r st).1 = trace st ++ events
    ∧ (length (validations events) ≤ 2
       ∧ length (executions events) ≤ 2
       ∧ length (List.filter is_parse_retry (prompts events)) ≤ 1
       ∧ length (List.filter is_validation_retry (prompts events)) ≤ 1
       ∧ length (List.filter is_execution_retry (prompts events)) ≤ 1)
    ∧ (∀ pre error post,
         events = pre ++ Validated (Invalid error) :: post →
         match validations pre with
         | [] => ∃ post', post = Asked (Op_call2b error) :: post'
         | _ => post = []
                ∧ (cycle w r st).2 = Continue
                ∧ per_row_successful (cycle w r st).1 = per_row_successful st
         end)
    ∧ (∀ pre error post,
         events = pre ++ Asked (Op_call2b error) :: post →
         ∃ pre', pre = pre' ++ [Validated (Invalid error)]
                 ∧ validations pre' = [])
    ∧ (∀ pre error result post,
         events = pre ++ Executed (ExecInvalid error result) :: post →
         match executions pre with
         | [] => ∃ post', post = Asked (Op_call3a error) :: post'
         | _ => post = []
                ∧ (cycle w r st).2 = Continue
                ∧ per_row_successful (cycle w r st).1 = per_row_successful st
         end)
    ∧ (∀ pre error post,
         events = pre ++ Asked (Op_call3a error) :: post →
         ∃ pre' result, pre = pre' ++ [Executed (ExecInvalid error result)]
                        ∧ executions pre' = []).
Proof.
  run_cycle;
    (eexists; split; [rewrite <- ?app_assoc; reflexivity|]);
    (split; [simpl; lia|]);
    split_and!.
  all: try (intros pre err res post Heq;
            lazymatch type of Heq with _ = _ => idtac end;
            find_event pre; first [done | by eexists | by exists_prefix]).
  all: intros pre err post Heq;
         find_event pre; first [done | by eexists | by exists_prefix].
Qed.

(** C9. For a seed pair the loop makes at most [max_iter] iterations, of at
    most two cycles each, and collects at most [target + 1] records; it ends
    normally only with [max_iter] iterations made or [target] records
    collected; with the values of the script, 12 and 10, eleven records can
    be reached. *)
Theorem successes_bounded (max_iter target : nat) (st : state) :
  (let st' := (generation_loop w max_iter target r st).1 in
   current_iteration st' ≤ max_iter
   ∧ total_cycles_attempted st'
     ≤ total_cycles_attempted st + 2 * current_iteration st'
   ∧ length (per_row_successful st') ≤ target + 1
   ∧ ((generation_loop w max_iter target r st).2 = Normal () →
      current_iteration st' = max_iter
      ∨ target ≤ length (per_row_successful st')))
  ∧ length (per_row_successful
              (generation_loop busy_world max_iterations target_problems
                               plain_row (start Absent)).1)
    = target_problems + 1.
Proof.
  split; [|vm_compute; reflexivity].
  unfold generation_loop, modify, mbind, M_bind. simpl.
  match goal with |- context [iterations w target r max_iter ?st0] =>
    pose proof (iterations_frame target max_iter st0)
      as (_ & _ & _ & _ & _ & E1 & E2 & E3);
    pose proof (iterations_exit target max_iter st0) as E4
  end.
  simpl in *. split_and!; [lia..|].
  intros Hn. destruct (E4 Hn) as [Hc|Hl]; [left; lia|by right].
Qed.

(** C8, as the code has it.  When the store file exists and does not hold a
    JSON array, or cannot be read, the run prints a warning and starts from an
    empty store; once the loop of a row has ended, the write that follows,
    when it succeeds, replaces the file by an array that holds only records
    of that row: what the file held before is gone. *)
Theorem corrupt_store_overwritten (f : disk_file) :
  corrupt f = true →
  existing_records (start f) = []
  ∧ disk (start f) = f
  ∧ (∃ warning, warnings (start f) = [warning])
  ∧ (let st' := (process_row w r (start f)).1 in
     (process_row w r (start f)).2 = Normal () →
     writable w (total_cycles_attempted st') = true →
     disk st' = Array (existing_records st')
     ∧ existing_records st' `sublist_of` per_row_successful st').
Proof.
  intros Hf.
  assert (Hstart : existing_records (start f) = []
                   ∧ existing_signatures (start f) = signatures_of []
                   ∧ disk (start f) = f
                   ∧ ∃ warning, warnings (start f) = [warning]).
  { destruct f; try done; simpl; eauto. }
  destruct Hstart as (S1 & S2 & S3 & S4). split_and!; try done.
  unfold process_row, generation_loop, persist, modify, mbind, M_bind.
  cbv beta iota.
  match goal with |- context [iterations w ?t r ?m ?st0] =>
    pose proof (iterations_frame t m st0) as (E1 & E2 & _);
    destruct (iterations w t r m st0) as [st1 [[]| |e]]
  end; cbn [fst snd] in *; try done.
  rewrite E1, E2. simpl. rewrite S1, S2.
  destruct (merge_records_spec (per_row_successful st1) [])
    as (added & -> & Hsub & _).
  simpl. by intros _ ->.
Qed.

End OrchestratorFacts.

Lemma retry_once_witness :
  (cycle stubborn_world plain_row (start Absent)).2 = Continue
  ∧ per_row_successful (cycle stubborn_world plain_row (start Absent)).1 = [].
Proof.
  destruct (retry_once stubborn_world plain_row (start Absent))
    as (events & Htrace & _ & Hval & _).
  vm_compute in Htrace. subst events.
  destruct (Hval [Asked Op_call2; Validated (Invalid "Invalid formula_id");
                  Asked (Op_call2b "Invalid formula_id")]
                 "Invalid formula_id" [] eq_refl) as (_ & Hc & Hp).
  split; [exact Hc | exact Hp].
Defined.

Lemma successes_bounded_witness :
  current_iteration (generation_loop busy_world max_iterations target_problems
                       plain_row (start Absent)).1 = max_iterations
  ∨ target_problems
    ≤ length (per_row_successful
                (generation_loop busy_world max_iterations target_problems
                   plain_row (start Absent)).1).
Proof.
  destruct (successes_bounded busy_world plain_row max_iterations
              target_problems (start Absent)) as [(_ & _ & _ & Hexit) _].
  apply Hexit. vm_compute. reflexivity.
Defined.

Lemma corrupt_store_overwritten_witness :
  disk (process_row silent_world plain_row (start truncated_store)).1
    = Array (existing_records
               (process_row silent_world plain_row (start truncated_store)).1).
Proof.
  pose proof (corrupt_store_overwritten silent_world plain_row truncated_store
                eq_refl) as (_ & _ & _ & Hw).
  cbv zeta in Hw. refine (proj1 (Hw _ _)); vm_compute; reflexivity.
Defined.

(** C8 as it is stated fails: with a store file that cannot be read and a
    row that yields nothing, the run goes on and the write after the row
    replaces the file by an empty array. *)
Lemma unreadable_store_replaced :
  (process_row silent_world plain_row (start truncated_store)).2 = Normal ()
  ∧ disk (process_row silent_world plain_row (start truncated_store)).1 = Array []
  ∧ disk (process_row silent_world plain_row (start truncated_store)).1
    ≠ truncated_store.
Proof.
  assert (Hd : disk (process_row silent_world plain_row
                       (start truncated_store)).1 = Array [])
    by (vm_compute; reflexivity).
  split_and!; [vm_compute; reflexivity | exact Hd | rewrite Hd; discriminate].
Qed.
(** ** More on the validator *)

Section ValidatorMore.
Context `{PyBuiltins}.

Lemma check_ranges_passed variable_ranges vars :
  check_ranges variable_ranges vars = Ret None →
  Forall (λ kv, within_declared_range variable_ranges kv = true) vars.
Proof.
  induction vars as [|[k v] vars IH]; simpl; [by constructor|].
  intros Hc.
  assert (within_declared_range variable_ranges (k, v) = true
          ∧ check_ranges variable_ranges vars = Ret None) as [H1 H2];
    [|constructor; auto].
  unfold within_declared_range. simpl.
  destruct (is_nan (value v)); [done|]. simpl.
  destruct (variable_ranges !! k) as [[[[|a [|b [|c rr]]]|]]|]; try done.
  destruct (py_float (value v)) as [x| | |]; try done.
  by destruct (in_range a b x).
Qed.


Lemma known_Forall (formula_dict : gset string) (fids : list string) :
  forallb (fun fid => bool_decide (fid ∈ formula_dict)) fids = true →
  Forall (λ fid, fid ∈ formula_dict) fids.
Proof.
  intros Hall. apply Forall_forall. intros fid Hin.
  rewrite forallb_forall in Hall.
  by apply list_elem_of_In, Hall, bool_decide_eq_true in Hin.
Qed.

(** The four tests that a valid verdict went through. *)
Lemma validate_problem_inv output formula_dict variable_ranges previous_problems u :
  validate_problem output formula_dict variable_ranges previous_problems
    = Ret (Valid u) →
  forallb (fun fid => bool_decide (fid ∈ formula_dict)) (formula_ids output)
    = true
  ∧ nan_vars (variables output) = [u]
  ∧ check_ranges variable_ranges (variables output) = Ret None
  ∧ signature_seen (compute_problem_signature output) previous_problems = false.
Proof.
  intros Hv. pose proof (validate_problem_valid _ _ _ _ _ Hv) as Hu.
  unfold validate_problem in Hv.
  destruct (forallb _ _) eqn:Hall; [|done]. simpl in Hv.
  rewrite Hu in Hv. simpl in Hv.
  destruct (check_ranges _ _) as [[err|]|] eqn:Hc; [done| |done].
  by destruct (signature_seen _ _) eqn:Hs.
Qed.

End ValidatorMore.

(** X1. A candidate that [validate_problem] declares valid passes all four
    checks: every formula id is known, exactly one entry is the unknown and
    it is the one returned, every entry passes the range check, and the
    signature is not in the history. *)
Theorem validate_problem_sound `{PyBuiltins} (output : candidate)
    (formula_dict : gset string) (variable_ranges : gmap string var_range)
    (previous_problems : list Previous.t) (u : string) :
  validate_problem output formula_dict variable_ranges previous_problems
    = Ret (Valid u) →
  Forall (λ fid, fid ∈ formula_dict) (formula_ids output)
  ∧ nan_vars (variables output) = [u]
  ∧ Forall (λ kv, within_declared_range variable_ranges kv = true)
           (variables output)
  ∧ signature_seen (compute_problem_signature output) previous_problems = false.
Proof.
  intros (Hall & Hu & Hc & Hs)%validate_problem_inv.
  split_and!; [by apply known_Forall | done | | done].
  by apply check_ranges_passed.
Qed.

Lemma validate_problem_sound_witness :
  Forall (λ kv, within_declared_range mass_range kv = true) scenario_variables.
Proof.
  apply (validate_problem_sound (Candidate "" ["F1"; "F2"] scenario_variables)
           known_F1_F2 mass_range [] "acceleration").
  vm_compute. reflexivity.
Defined.



(** X3. The verdict of [validate_problem] does not depend on the order of
    the formula ids, nor on the wording of the problem. *)
Theorem validate_problem_permutation `{PyBuiltins} (c1 c2 : candidate)
    (formula_dict : gset string) (variable_ranges : gmap string var_range)
    (previous_problems : list Previous.t) :
  formula_ids c1 ≡ₚ formula_ids c2 →
  variables c1 = variables c2 →
  validate_problem c1 formula_dict variable_ranges previous_problems
  = validate_problem c2 formula_dict variable_ranges previous_problems.
Proof.
  intros Hp Hv. unfold validate_problem, compute_problem_signature.
  rewrite Hv, (sorted_unique _ _ Hp).
  replace (forallb (λ fid, bool_decide (fid ∈ formula_dict)) (formula_ids c1))
    with (forallb (λ fid, bool_decide (fid ∈ formula_dict)) (formula_ids c2));
    [done|].
  apply eq_true_iff_eq. rewrite !forallb_forall.
  split; intros Hall fid Hin; apply Hall.
  - by apply (Permutation_in _ Hp).
  - by apply (Permutation_in _ (Permutation_sym Hp)).
Qed.

Lemma validate_problem_permutation_witness :
  validate_problem (Candidate "one" ["F2"; "F1"] scenario_variables)
                   known_F1_F2 mass_range []
  = validate_problem (Candidate "two" ["F1"; "F2"] scenario_variables)
                     known_F1_F2 mass_range [].
Proof.
  apply validate_problem_permutation; [apply perm_swap | reflexivity].
Defined.

(** ** More on the executor *)

Section ExecutorMore.
Context `{PyBuiltins}.

(** A valid verdict comes from the checks on a returned value only. *)
Lemma execute_valid_returning code variables result :
  execute_and_validate_in_repl code variables = Ret (ExecValid result) →
  code = returning result
  ∧ check_result result variables = Ret (ExecValid result).
Proof.
  destruct code as [e|[[|[e|x]]|]]; simpl;
    try (unfold execution_failed; destruct (derives_Exception e)); try done.
  intros Hx. assert (x = result) as ->; [|done].
  unfold check_result in Hx.
  destruct (negb _); [done|]. destruct (nan_or_inf x) as [[]|]; try done.
  destruct (nan_vars variables); [congruence|].
  destruct (_ && _); congruence.
Qed.

Lemma check_result_valid result variables :
  check_result result variables = Ret (ExecValid result) →
  finite_number result = true
  ∧ ∀ unknown_var rest, nan_vars variables = unknown_var :: rest →
      negative result && sign_checked unknown_var = false.
Proof.
  unfold check_result. intros Hc.
  destruct (negb (is_int_or_float result)) eqn:Ht; [done|].
  destruct (nan_or_inf result) as [[]|] eqn:Hn; try done.
  split.
  - destruct result as [|b|z|[|neg|q]|s]; simpl in *; try done.
    destruct (float_of_int z) as [q|] eqn:Hz; [|done].
    by apply bool_decide_eq_true.
  - intros u rest Hu. rewrite Hu in Hc.
    change (existsb _ sign_tokens) with (sign_checked u) in Hc.
    by destruct (negative result && sign_checked u).
Qed.

End ExecutorMore.

(** X4. When [execute_and_validate_in_repl] declares a result valid, the
    code defined a callable [solve] that returned this result, the result is
    a [bool], an [int] that converts to a float or a finite [float], and it
    is not a negative value for an unknown whose name contains one of the six
    tokens. *)
Theorem execute_valid_sound `{PyBuiltins} (code : code)
    (variables : list (string * var_data)) (result : pyval) :
  execute_and_validate_in_repl code variables = Ret (ExecValid result) →
  code = returning result
  ∧ finite_number result = true
  ∧ ∀ unknown_var rest, nan_vars variables = unknown_var :: rest →
      negative result && sign_checked unknown_var = false.
Proof.
  intros [-> Hc]%execute_valid_returning.
  apply check_result_valid in Hc as [Hfin Hsign].
  by split_and!.
Qed.

Lemma execute_valid_sound_witness :
  negative (PyInt (-5)) && sign_checked "charge" = false.
Proof.
  destruct (execute_valid_sound (returning (PyInt (-5)))
              (unknown_named "charge") (PyInt (-5)))
    as (_ & _ & Hs); [vm_compute; reflexivity|].
  apply (Hs "charge" []). reflexivity.
Defined.

(** X5. An exception leaves [execute_and_validate_in_repl] in two cases
    only: the code, or the call of [solve], raised an error that is not an
    [Exception] (such as [SystemExit]), or [solve] returned an [int] too
    large for a float, on which [math.isnan] raises [OverflowError]. *)
Theorem execute_raises `{PyBuiltins} (code : code)
    (variables : list (string * var_data)) (e : exception) :
  execute_and_validate_in_repl code variables = Exc e →
  (∃ r, derives_Exception r = false ∧ error_of r = e
        ∧ (code = ExecRaises r
           ∨ code = ExecDefines (Some (Callable (SolveRaises r)))))
  ∨ (e = overflow_error
     ∧ ∃ z, code = returning (PyInt z) ∧ float_of_int z = None).
Proof.
  destruct code as [r|[[|[r|x]]|]]; simpl; try done.
  - unfold execution_failed. destruct (derives_Exception r) eqn:Hd; [done|].
    intros [= <-]. left. exists r. auto.
  - unfold execution_failed. destruct (derives_Exception r) eqn:Hd; [done|].
    intros [= <-]. left. exists r. auto.
  - unfold check_result.
    destruct x as [|b|z|[|neg|q]|s]; simpl; try done.
    + by destruct (nan_vars variables).
    + destruct (float_of_int z) as [q|] eqn:Hz.
      * destruct (nan_vars variables); [done|]. by destruct (_ && _).
      * intros [= <-]. right. split; [done|]. by exists z.
    + destruct (nan_vars variables); [done|]. by destruct (_ && _).
Qed.

Lemma execute_raises_witness :
  ∃ z, @float_of_int bounded_builtins z = None.
Proof.
  destruct (@execute_raises bounded_builtins (returning (PyInt (2 ^ 1024))) []
              overflow_error) as [(r & _ & _ & [Hc|Hc])|(_ & z & _ & Hz)].
  - vm_compute. reflexivity.
  - discriminate Hc.
  - discriminate Hc.
  - by exists z.
Defined.

(** X6. A result is handed back with an error only by the sign check: in
    every other failure the field [result] is [None]. *)
Theorem execute_invalid_result `{PyBuiltins} (code : code)
    (variables : list (string * var_data)) (error : string) (result : pyval) :
  execute_and_validate_in_repl code variables
    = Ret (ExecInvalid error (Some result)) →
  code = returning result
  ∧ negative result = true
  ∧ ∃ unknown_var rest,
      nan_vars variables = unknown_var :: rest
      ∧ sign_checked unknown_var = true
      ∧ error = "Negative value for " +:+ unknown_var.
Proof.
  destruct code as [e|[[|[e|x]]|]]; simpl;
    try (unfold execution_failed; destruct (derives_Exception e)); try done.
  unfold check_result.
  destruct (negb (is_int_or_float x)); [done|].
  destruct (nan_or_inf x) as [[]|]; try done.
  destruct (nan_vars variables) as [|u l]; [done|].
  change (existsb _ sign_tokens) with (sign_checked u).
  destruct (negative x) eqn:Hn; [|done].
  destruct (sign_checked u) eqn:Hs; [|done].
  intros [= <- <-]. split_and!; [done|done|]. by exists u, l.
Qed.

Lemma execute_invalid_result_witness :
  negative (PyInt (-5)) = true.
Proof.
  destruct (execute_invalid_result (returning (PyInt (-5)))
              (unknown_named "distance") "Negative value for distance"
              (PyInt (-5))) as (_ & Hn & _); [vm_compute; reflexivity|].
  exact Hn.
Defined.

(** ** More on the main loop *)

Section LoopMore.
Context `{PyBuiltins} (w : world) (r : row).

#[local] Arguments validate_problem : simpl never.
#[local] Arguments execute_and_validate_in_repl : simpl never.
#[local] Arguments compute_problem_signature : simpl never.
#[local] Arguments signature_seen : simpl never.
#[local] Arguments String.substring : simpl never.
#[local] Arguments take : simpl never.

Ltac run_cycle :=
  unfold cycle, generate, validated, executed, record, validate, execute,
    generate_content, emit, modify, gets, continue, call,
    mbind, M_bind, mret, M_ret;
  simpl;
  repeat (match goal with
          | |- context [llm ?w ?n] =>
              destruct (llm w n) as [|?] eqn:?; simpl
          | |- context [parsed ?t] =>
              destruct (parsed t) as [?|] eqn:?; simpl
          | |- context [validate_problem ?a ?b ?c ?d] =>
              destruct (validate_problem a b c d) as [[?|?]|?] eqn:?; simpl
          | |- context [execute_and_validate_in_repl ?a ?b] =>
              destruct (execute_and_validate_in_repl a b) as [[? ?|?]|?] eqn:?;
              simpl
          | |- context [signature_seen ?a ?b] =>
              destruct (signature_seen a b) eqn:?; simpl
          end).

(** A cycle either leaves the records and the history as they are, or
    appends one record, made of a candidate that passed the validator against
    the history and of a result that passed the executor, and pushes its
    signature on the history. *)
Lemma cycle_record st :
  let st' := (cycle w r st).1 in
  (per_row_successful st' = per_row_successful st
   ∧ previous_problems st' = previous_problems st)
  ∨ ∃ c u text x now code,
      per_row_successful st'
        = per_row_successful st
          ++ [SuccessRecord.Make (Some (compute_problem_signature c))
                (formula_ids c) (Some u) (word_problem c) (variables c)
                text (Some x) (ExecValid x) (Valid u) now
                (Pair_Number r) (source_problem_ID r)]
      ∧ previous_problems st'
        = take 10 (Previous.Make (compute_problem_signature c)
                     (String.substring 0 140 (word_problem c)) now
                   :: previous_problems st)
      ∧ validate_problem c (formula_id_set r) (variable_ranges r)
                         (previous_problems st) = Ret (Valid u)
      ∧ execute_and_validate_in_repl code (variables c) = Ret (ExecValid x).
Proof.
  run_cycle; first [ by left | right; by repeat eexists ].
Qed.

(** A property of the state that every cycle run with at most [target]
    records keeps, and that the bookkeeping of an iteration keeps, holds when
    the loop stops. *)
Lemma iterations_invariant (P : state → Prop) target remaining st :
  (∀ st, P st → length (per_row_successful st) ≤ target → P (cycle w r st).1) →
  (∀ st idx, P st → P (set_loop idx (S (current_iteration st))
                                (per_row_successful st) (previous_problems st) st)) →
  P st → P (iterations w target r remaining st).1.
Proof.
  intros Hcycle Hstep. revert st.
  induction remaining as [|remaining IH]; intros st HP; simpl; [done|].
  unfold mbind, M_bind, gets. simpl.
  destruct (length (per_row_successful st) <? target)%nat eqn:Hlt; simpl;
    [|done].
  apply Nat.ltb_lt in Hlt.
  unfold iteration, body, modify, mbind, M_bind. simpl.
  match goal with |- context [cycle w r ?st1] =>
    assert (HP1 : P st1) by (by apply Hstep);
    assert (Hl1 : length (per_row_successful st1) ≤ target) by (simpl; lia);
    pose proof (Hcycle st1 HP1 Hl1) as HP2;
    pose proof (cycle_frame w r st1) as (_ & _ & _ & _ & _ & _ & _ & a1 & E1 & L1);
    destruct (cycle w r st1) as [st2 [[]| |e]]
  end; simpl in *; try done.
  all: assert (Hl2 : length (per_row_successful st2) ≤ target)
         by (rewrite E1, length_app; lia);
       pose proof (Hcycle st2 HP2 Hl2) as HP3;
       destruct (cycle w r st2) as [st3 [[]| |e]]; simpl in *; try done;
       by apply IH.
Qed.

Lemma generation_loop_invariant (P : state → Prop) max_iter target st :
  (∀ st, P st → length (per_row_successful st) ≤ target → P (cycle w r st).1) →
  (∀ st idx, P st → P (set_loop idx (S (current_iteration st))
                                (per_row_successful st) (previous_problems st) st)) →
  P (set_loop 0 0 [] (previous_problems st) st) →
  P (generation_loop w max_iter target r st).1.
Proof.
  intros Hcycle Hstep HP. unfold generation_loop, modify, mbind, M_bind.
  cbv beta iota. by apply iterations_invariant.
Qed.

Lemma signature_seen_false sig previous :
  signature_seen sig previous = false ↔ sig ∉ Previous.signature <$> previous.
Proof.
  unfold signature_seen. induction previous as [|p previous IH]; simpl.
  { split; [intros _ ?%elem_of_nil|]; done. }
  rewrite orb_false_iff, IH, not_elem_of_cons, String.eqb_neq.
  split; intros [? ?]; (split; [congruence|done]).
Qed.

Lemma substring_length n m s : String.length (String.substring n m s) ≤ m.
Proof.
  revert n m. induction s as [|c s IH]; intros [|n] [|m]; simpl; try lia.
  - specialize (IH 0 m). lia.
  - apply (IH n 0).
  - apply (IH n (S m)).
Qed.

(** Pushing a new signature keeps the history in order. *)
Lemma window_push sig snippet now previous :
  window_ok previous →
  sig ∉ Previous.signature <$> previous →
  String.length snippet ≤ 140 →
  window_ok (take 10 (Previous.Make sig snippet now :: previous)).
Proof.
  intros (Hlen & Hnd & Hsn) Hnew Hs. split_and!.
  - rewrite length_take. lia.
  - rewrite fmap_take. eapply sublist_NoDup; [|apply sublist_take].
    simpl. by apply NoDup_cons.
  - apply Forall_take. by constructor.
Qed.

Lemma cycle_window st :
  window_ok (previous_problems st) →
  window_ok (previous_problems (cycle w r st).1).
Proof.
  intros Hw.
  destruct (cycle_record st)
    as [[_ ->]|(c & u & text & x & now & code & _ & -> & Hv & _)]; [done|].
  apply validate_problem_inv in Hv as (_ & _ & _ & Hs).
  apply window_push; [done|by apply signature_seen_false|].
  apply substring_length.
Qed.

(** X7. Every record that the loop of a row collects went through both
    checks: its signature is the one of its own formula ids and variables,
    its formula ids are formulas of the row, exactly one of its variables is
    the unknown and it is the one named, every variable passes the range
    check, and its result is a number that is neither NaN nor infinite nor a
    negative value of a sign-checked unknown. *)
Theorem records_verified (max_iter target : nat) (st : state) :
  Forall (verified_record r)
         (per_row_successful (generation_loop w max_iter target r st).1).
Proof.
  apply (generation_loop_invariant
           (λ st, Forall (verified_record r) (per_row_successful st))).
  - intros st0 HP _.
    destruct (cycle_record st0)
      as [[-> _]|(c & u & text & x & now & code & -> & _ & Hv & Hx)]; [done|].
    apply Forall_app. split; [done|]. constructor; [|constructor].
    apply validate_problem_inv in Hv as (Hk & Hu & Hr & _).
    apply execute_valid_returning in Hx as [_ Hx].
    apply check_result_valid in Hx as [Hfin Hsign].
    exists u, x. simpl.
    split_and!; try done;
      [by apply known_Forall | by apply check_ranges_passed
      | by apply (Hsign u [])].
  - done.
  - constructor.
Qed.

(** X8. The loop of a row keeps the recent history in order: at most ten
    entries, pairwise distinct signatures, snippets of at most 140
    characters. *)
Theorem history_window (max_iter target : nat) (st : state) :
  window_ok (previous_problems st) →
  window_ok (previous_problems (generation_loop w max_iter target r st).1).
Proof.
  intros Hw.
  apply (generation_loop_invariant (λ st, window_ok (previous_problems st)));
    [|done|done].
  intros st0 HP _. by apply cycle_window.
Qed.

Lemma cycle_row_distinct st :
  length (per_row_successful st) ≤ 10 →
  row_in_window st
  ∧ NoDup (SuccessRecord.signature <$> per_row_successful st) →
  row_in_window (cycle w r st).1
  ∧ NoDup (SuccessRecord.signature <$> per_row_successful (cycle w r st).1).
Proof.
  intros Hlen [[older Hin] Hnd]. unfold row_in_window.
  destruct (cycle_record st)
    as [[-> ->]|(c & u & text & x & now & code & -> & -> & Hv & _)];
    [by eauto|].
  apply validate_problem_inv in Hv as (_ & _ & _ & Hs).
  apply signature_seen_false in Hs.
  set (sig := compute_problem_signature c) in *.
  rewrite !fmap_app. simpl. split.
  - exists older. rewrite !fmap_take. simpl.
    rewrite Hin, reverse_snoc. simpl. by rewrite take_take.
  - apply NoDup_app. split_and!; [done| |apply NoDup_singleton].
    intros s Hs1 Hs2%list_elem_of_singleton. subst s. apply Hs.
    apply (list_elem_of_fmap_inj Some). rewrite Hin.
    rewrite take_app_ge by (rewrite length_reverse, length_fmap; lia).
    apply elem_of_app. left. by apply elem_of_reverse.
Qed.

(** X9. With a target of at most ten records, and a history in order, the
    records that the loop of a row collects have pairwise distinct
    signatures. *)
Theorem row_signatures_distinct (max_iter target : nat) (st : state) :
  target ≤ 10 →
  window_ok (previous_problems st) →
  NoDup (SuccessRecord.signature
           <$> per_row_successful (generation_loop w max_iter target r st).1).
Proof.
  intros Ht (Hlen & _).
  apply (generation_loop_invariant
           (λ st, row_in_window st
                  ∧ NoDup (SuccessRecord.signature <$> per_row_successful st))).
  - intros st0 HP Hl. apply cycle_row_distinct; [lia|done].
  - done.
  - split; [|constructor].
    exists (Some <$> (Previous.signature <$> previous_problems st)). simpl.
    rewrite take_ge; [done|]. by rewrite !length_fmap.
Qed.

(** A cycle makes between one and five calls of the service.  When it
    ends normally it has appended one record, after at least two calls; when
    it is abandoned it has appended none and has raised one of the failure
    counters. *)
Lemma cycle_counts st :
  let st' := (cycle w r st).1 in
  llm_calls st < llm_calls st'
  ∧ llm_calls st' ≤ llm_calls st + 5
  ∧ failures st ≤ failures st'
  ∧ match (cycle w r st).2 with
    | Normal _ => length (per_row_successful st') = S (length (per_row_successful st))
                  ∧ llm_calls st + 2 ≤ llm_calls st'
    | Continue => length (per_row_successful st') = length (per_row_successful st)
                  ∧ failures st < failures st'
    | Raise _ => True
    end.
Proof.
  unfold failures.
  run_cycle; rewrite ?length_app; simpl; split_and!; (done || lia).
Qed.

Lemma iterations_accounting target remaining st :
  (iterations w target r remaining st).2 = Normal () →
  let st' := (iterations w target r remaining st).1 in
  total_cycles_attempted st'
    = total_cycles_attempted st + 2 * (current_iteration st' - current_iteration st)
  ∧ total_cycles_attempted st' + length (per_row_successful st) + failures st
    ≤ total_cycles_attempted st + length (per_row_successful st') + failures st'.
Proof.
  revert st. induction remaining as [|remaining IH]; intros st; simpl.
  { intros _. lia. }
  unfold mbind, M_bind, gets. simpl.
  destruct (length (per_row_successful st) <? target)%nat; simpl;
    [|intros _; lia].
  unfold iteration, body, modify, mbind, M_bind. simpl.
  match goal with |- context [cycle w r ?st1] =>
    pose proof (cycle_frame w r st1) as (_ & _ & _ & _ & _ & F1 & F2 & _);
    pose proof (cycle_counts st1) as (_ & _ & C0 & C1);
    destruct (cycle w r st1) as [st2 [[]| |e]]
  end; simpl in *; try done.
  all: pose proof (cycle_frame w r st2) as (_ & _ & _ & _ & _ & G1 & G2 & _);
       pose proof (cycle_counts st2) as (_ & _ & D0 & C2);
       destruct (cycle w r st2) as [st3 [[]| |e]]; simpl in *; try done;
       intros Hn; specialize (IH st3 Hn); simpl in IH;
       pose proof (iterations_frame w r target remaining st3)
         as (_ & _ & _ & _ & I1 & _);
       simpl in I1; unfold failures in *; simpl in *;
       destruct C1 as [C1 C1'], C2 as [C2 C2']; lia.
Qed.

(** X10. The loop of a row calls the service at most five times in a cycle,
    hence at most ten times [max_iter] in all. *)
Theorem service_calls_bounded (max_iter target : nat) (st : state) :
  llm_calls (generation_loop w max_iter target r st).1
    ≤ llm_calls st + 10 * max_iter.
Proof.
  assert (Hinv : llm_calls (generation_loop w max_iter target r st).1
                   + 5 * total_cycles_attempted st
                 ≤ llm_calls st
                   + 5 * total_cycles_attempted
                           (generation_loop w max_iter target r st).1).
  { apply (generation_loop_invariant
             (λ st', llm_calls st' + 5 * total_cycles_attempted st
                     ≤ llm_calls st + 5 * total_cycles_attempted st')).
    - intros st0 HP _.
      pose proof (cycle_frame w r st0) as (_ & _ & _ & _ & _ & _ & F & _).
      pose proof (cycle_counts st0) as (_ & C & _).
      simpl in *. lia.
    - done.
    - simpl. lia. }
  unfold generation_loop, modify, mbind, M_bind in *. cbv beta iota in *.
  match goal with |- context [iterations w target r max_iter ?st0] =>
    pose proof (iterations_frame w r target max_iter st0)
      as (_ & _ & _ & _ & _ & E1 & E2 & _)
  end.
  simpl in *. lia.
Qed.

(** X11. When the loop of a row ends normally it has attempted exactly two
    cycles in each iteration, and every one of them is accounted for: it
    gave a record, or it raised the count of skipped duplicates, of parse
    failures or of execution failures. *)
Theorem cycles_accounted (max_iter target : nat) (st : state) :
  (generation_loop w max_iter target r st).2 = Normal () →
  let st' := (generation_loop w max_iter target r st).1 in
  total_cycles_attempted st'
    = total_cycles_attempted st + 2 * current_iteration st'
  ∧ total_cycles_attempted st' + failures st
    ≤ total_cycles_attempted st + length (per_row_successful st') + failures st'.
Proof.
  unfold generation_loop, modify, mbind, M_bind. cbv beta iota.
  intros Hn. apply iterations_accounting in Hn.
  unfold failures in *. simpl in *. lia.
Qed.

End LoopMore.

Lemma cycles_accounted_witness :
  total_cycles_attempted
    (generation_loop busy_world max_iterations target_problems plain_row
                     (start Absent)).1
  = 2 * current_iteration
          (generation_loop busy_world max_iterations target_problems plain_row
                           (start Absent)).1.
Proof.
  apply (cycles_accounted busy_world plain_row max_iterations target_problems
           (start Absent)).
  vm_compute. reflexivity.
Defined.

Lemma history_window_witness :
  window_ok (previous_problems
               (generation_loop busy_world max_iterations target_problems
                                plain_row (start Absent)).1).
Proof.
  apply history_window. split_and!; [simpl; lia | constructor | constructor].
Defined.

Lemma row_signatures_distinct_witness :
  NoDup (SuccessRecord.signature
           <$> per_row_successful
                 (generation_loop busy_world max_iterations target_problems
                                  plain_row (start Absent)).1).
Proof.
  apply row_signatures_distinct.
  - unfold target_problems. lia.
  - split_and!; [simpl; lia | constructor | constructor].
Defined.

(** ** The store over the rows of a run *)

Section StoreMore.
Context `{PyBuiltins} (w : world).

#[local] Arguments generation_loop : simpl never.
#[local] Arguments merge_records : simpl never.

Lemma generation_loop_frame r max_iter target st :
  let st' := (generation_loop w max_iter target r st).1 in
  existing_records st' = existing_records st
  ∧ existing_signatures st' = existing_signatures st
  ∧ disk st' = disk st
  ∧ warnings st' = warnings st.
Proof.
  unfold generation_loop, modify, mbind, M_bind. cbv beta iota.
  match goal with |- context [iterations w target r max_iter ?st0] =>
    pose proof (iterations_frame w r target max_iter st0)
      as (E1 & E2 & E3 & E4 & _)
  end.
  by split_and!.
Qed.

(** What a row does to the store, by the way its loop ends. *)
Lemma process_row_spec r st :
  let g := generation_loop w max_iterations target_problems r st in
  let merged := merge_records (per_row_successful g.1) (existing_records st)
                              (existing_signatures st) in
  let st' := (process_row w r st).1 in
  per_row_successful st' = per_row_successful g.1
  ∧ total_cycles_attempted st' = total_cycles_attempted g.1
  ∧ (process_row w r st).2 = g.2
  ∧ match g.2 with
    | Normal _ =>
        existing_records st' = merged.1
        ∧ existing_signatures st' = merged.2
        ∧ disk st' = atomic_write_json
                       (writable w (total_cycles_attempted g.1)) (disk st)
                       merged.1
    | _ =>
        existing_records st' = existing_records st
        ∧ existing_signatures st' = existing_signatures st
        ∧ disk st' = disk st
    end.
Proof.
  pose proof (generation_loop_frame r max_iterations target_problems st)
    as (E1 & E2 & E3 & E4).
  unfold process_row, persist, modify, mbind, M_bind. cbv beta iota zeta.
  destruct (generation_loop w max_iterations target_problems r st)
    as [st1 [[]| |e]]; simpl in *; [|done..].
  rewrite E1, E2, E3.
  by destruct (merge_records _ _ _).
Qed.

(** Every record that the loop collects carries a signature that the merge
    can use. *)
Lemma records_signed r max_iter target st :
  Forall (λ rec, ∃ sig, truthy (SuccessRecord.signature rec) = Some sig)
         (per_row_successful (generation_loop w max_iter target r st).1).
Proof.
  apply (generation_loop_invariant w r
           (λ st, Forall (λ rec, ∃ sig, truthy (SuccessRecord.signature rec)
                                         = Some sig)
                         (per_row_successful st))).
  - intros st0 HP _.
    destruct (cycle_record w r st0)
      as [[-> _]|(c & u & text & x & now & code & -> & _)]; [done|].
    apply Forall_app. split; [done|]. constructor; [|constructor].
    by eexists.
  - done.
  - constructor.
Qed.

Lemma process_row_store r st :
  existing_signatures st = signatures_of (existing_records st) →
  let st' := (process_row w r st).1 in
  existing_signatures st' = signatures_of (existing_records st')
  ∧ existing_records st `prefix_of` existing_records st'
  ∧ (NoDup (SuccessRecord.signature <$> existing_records st) →
     NoDup (SuccessRecord.signature <$> existing_records st')).
Proof.
  intros Hinv.
  pose proof (process_row_spec r st) as (_ & _ & _ & Hcase).
  destruct ((generation_loop w max_iterations target_problems r st).2)
    as [[]| |e]; cbv zeta in *.
  2,3: destruct Hcase as (-> & -> & _); by split_and!.
  destruct Hcase as (-> & -> & _). rewrite Hinv.
  destruct (merge_records_spec
              (per_row_successful
                 (generation_loop w max_iterations target_problems r st).1)
              (existing_records st)) as (added & -> & _ & _ & Hnd).
  simpl. split_and!; [done|by eexists|done].
Qed.

(** X12. Over the rows of a run the store only grows: the records it held
    stay in front, in their order; the set of signatures stays the set of the
    signatures of the records; and signatures that were pairwise distinct
    stay so. *)
Theorem store_grows (rows : list row) (st : state) :
  existing_signatures st = signatures_of (existing_records st) →
  let st' := (process_rows w rows st).1 in
  existing_signatures st' = signatures_of (existing_records st')
  ∧ existing_records st `prefix_of` existing_records st'
  ∧ (NoDup (SuccessRecord.signature <$> existing_records st) →
     NoDup (SuccessRecord.signature <$> existing_records st')).
Proof.
  revert st. induction rows as [|r rows IH]; intros st Hinv; simpl.
  { by split_and!. }
  unfold mbind, M_bind.
  pose proof (process_row_store r st Hinv) as (H1 & H2 & H3).
  destruct (process_row w r st) as [st1 [[]| |e]]; simpl in *;
    [|by split_and!..].
  destruct (IH st1 H1) as (I1 & I2 & I3).
  split_and!; [done|by etrans|auto].
Qed.


(** X14. A write that fails, and a loop that an exception leaves, do not
    touch the file. *)
Theorem failed_write_keeps_file (r : row) (st : state) :
  let st' := (process_row w r st).1 in
  (process_row w r st).2 ≠ Normal ()
  ∨ writable w (total_cycles_attempted st') = false →
  disk st' = disk st.
Proof.
  intros st' Hcase.
  pose proof (process_row_spec r st) as (_ & Ht & Hf & Hspec).
  cbv zeta in *. fold st' in Ht, Hf, Hspec.
  destruct ((generation_loop w max_iterations target_problems r st).2)
    as [[]| |e]; [|by destruct Hspec as (_ & _ & ->)..].
  destruct Hcase as [Hc|Hc]; [by rewrite Hf in Hc|].
  destruct Hspec as (_ & _ & ->). by rewrite <- Ht, Hc.
Qed.

(** X15. After a row whose loop ended normally, every record that the row
    collected has its signature in the store, whether the write succeeded or
    not. *)
Theorem row_records_stored (r : row) (st : state) :
  existing_signatures st = signatures_of (existing_records st) →
  let st' := (process_row w r st).1 in
  (process_row w r st).2 = Normal () →
  ∀ rec, rec ∈ per_row_successful st' →
    ∃ rec', rec' ∈ existing_records st'
            ∧ SuccessRecord.signature rec' = SuccessRecord.signature rec.
Proof.
  intros Hinv st' Hn rec Hrec.
  pose proof (process_row_store r st Hinv) as (Hsig & _).
  pose proof (process_row_spec r st) as (Hp & _ & Hf & Hspec).
  cbv zeta in *. fold st' in Hsig, Hp, Hf, Hspec.
  rewrite Hn in Hf. rewrite <- Hf in Hspec. destruct Hspec as (_ & Hs & _).
  rewrite Hp in Hrec.
  pose proof (records_signed r max_iterations target_problems st) as Hall.
  rewrite Forall_forall in Hall. destruct (Hall rec Hrec) as [sig Hsg].
  assert (Hin : sig ∈ existing_signatures st').
  { rewrite Hs. by eapply merge_records_covers. }
  rewrite Hsig in Hin. apply elem_of_signatures_of in Hin as (rec' & Hin & Ht).
  exists rec'. split; [done|].
  by rewrite (truthy_Some _ _ Ht), (truthy_Some _ _ Hsg).
Qed.

End StoreMore.

Lemma store_grows_witness :
  [stored "s1"] `prefix_of`
    existing_records (process_rows silent_world [plain_row; plain_row]
                        (start (Array [stored "s1"]))).1.
Proof.
  apply (store_grows silent_world [plain_row; plain_row]
           (start (Array [stored "s1"]))).
  reflexivity.
Defined.


Lemma failed_write_keeps_file_witness :
  disk (process_row (World (llm busy_world) (utcnow busy_world) (fun _ => false))
          plain_row (start truncated_store)).1
  = truncated_store.
Proof.
  apply (failed_write_keeps_file
           (World (llm busy_world) (utcnow busy_world) (fun _ => false))
           plain_row (start truncated_store)).
  right. reflexivity.
Defined.

Lemma row_records_stored_witness :
  ∃ rec', rec' ∈ existing_records
                   (process_row busy_world plain_row (start Absent)).1
          ∧ SuccessRecord.signature rec'
            = SuccessRecord.signature
                (default (stored "")
                   (head (per_row_successful
                            (process_row busy_world plain_row (start Absent)).1))).
Proof.
  apply (row_records_stored busy_world plain_row (start Absent)).
  - vm_compute; reflexivity.
  - vm_compute; reflexivity.
  - apply (list_elem_of_lookup_2 _ 0). vm_compute. reflexivity.
Defined.

(** ** The formulas of the chapters *)

Lemma add_formula_filed fid f acc l :
  acc = (list_to_set (l.*1), list_to_map (reverse l)) →
  add_formula fid f acc
  = (list_to_set ((l ++ [(fid, f)]).*1), list_to_map (reverse (l ++ [(fid, f)]))).
Proof.
  intros ->. unfold add_formula. simpl.
  rewrite fmap_app, list_to_set_app_L, reverse_snoc. simpl.
  f_equal. rewrite (right_id_L ∅ (∪)). apply (comm_L (∪)).
Qed.

Lemma scan_dict_filed subs acc l :
  acc = (list_to_set (l.*1), list_to_map (reverse l)) →
  scan_dict subs acc
  = (list_to_set ((l ++ filed_in (SubDict subs)).*1),
     list_to_map (reverse (l ++ filed_in (SubDict subs)))).
Proof.
  unfold scan_dict. revert acc l.
  induction subs as [|[k [|f]] subs IH]; intros acc l Hacc; simpl.
  - by rewrite app_nil_r.
  - by apply IH.
  - destruct (formula_id f) as [fid|]; simpl; [|by apply IH].
    rewrite (IH _ (l ++ [(fid, f)])); [by rewrite <- app_assoc|].
    by apply add_formula_filed.
Qed.

Lemma scan_list_filed items acc l :
  acc = (list_to_set (l.*1), list_to_map (reverse l)) →
  scan_list items acc
  = (list_to_set ((l ++ filed_in (SubList items)).*1),
     list_to_map (reverse (l ++ filed_in (SubList items)))).
Proof.
  unfold scan_list. revert acc l.
  induction items as [|[|f] items IH]; intros acc l Hacc; simpl.
  - by rewrite app_nil_r.
  - by apply IH.
  - destruct (formula_id f) as [fid|]; simpl; [|by apply IH].
    destruct (String.eqb fid ""); simpl; [by apply IH|].
    rewrite (IH _ (l ++ [(fid, f)])); [by rewrite <- app_assoc|].
    by apply add_formula_filed.
Qed.

(** The nested loops file the formulas one after the other: the set holds
    the ids met, the map the latest formula met for each id. *)
Lemma normalize_filed available_formulas :
  normalize_available_formula_ids available_formulas
  = (list_to_set ((filed available_formulas).*1),
     list_to_map (reverse (filed available_formulas))).
Proof.
  destruct available_formulas as [|sections]; simpl; [done|].
  assert (Hgen : ∀ acc l,
    acc = (list_to_set (l.*1), list_to_map (reverse l)) →
    foldl (fun acc kv =>
             match snd kv with
             | SubDict subs => scan_dict subs acc
             | SubList items => scan_list items acc
             | SubOther => acc
             end) acc sections
    = (list_to_set ((l ++ mjoin ((fun kv => filed_in (snd kv)) <$> sections)).*1),
       list_to_map (reverse (l ++ mjoin ((fun kv => filed_in (snd kv))
                                            <$> sections))))).
  { induction sections as [|[k val] sections IH]; intros acc l Hacc; simpl.
    - by rewrite app_nil_r.
    - rewrite app_assoc. apply IH.
      destruct val as [subs|items|]; simpl.
      + by apply scan_dict_filed.
      + by apply scan_list_filed.
      + by rewrite app_nil_r. }
  by apply (Hgen _ []).
Qed.

Lemma filed_in_id val fid f :
  (fid, f) ∈ filed_in val → formula_id f = Some fid.
Proof.
  destruct val as [subs|items|]; simpl.
  - intros ([k [|g]] & _ & Hg)%list_elem_of_omap; simpl in Hg; [done|].
    destruct (formula_id g) eqn:Hid; simplify_eq/=. done.
  - intros ([|g] & _ & Hg)%list_elem_of_omap; simpl in Hg; [done|].
    destruct (formula_id g) as [i|] eqn:Hid; [|done].
    destruct (String.eqb i ""); simplify_eq/=. done.
  - by intros ?%elem_of_nil.
Qed.

Lemma filed_id available_formulas fid f :
  (fid, f) ∈ filed available_formulas → formula_id f = Some fid.
Proof.
  destruct available_formulas as [|sections]; simpl; [by intros ?%elem_of_nil|].
  intros (l & Hin & Hl)%list_elem_of_join.
  apply list_elem_of_fmap in Hl as ([k val] & -> & _).
  by apply filed_in_id in Hin.
Qed.

(** X16. For every argument, the map that
    [normalize_available_formula_ids] returns has the returned set as its
    keys; an id is in the set exactly when the argument holds a formula filed
    under it (a formula with this id in a dict section, or with this id, not
    empty, in a list section); and each formula of the map carries the id it
    is filed under and is one of these formulas. *)
Theorem normalize_ids_by_id (available_formulas : formulas) :
  let '(ids, by_id) := normalize_available_formula_ids available_formulas in
  dom by_id = ids
  ∧ (∀ fid, fid ∈ ids ↔ ∃ f, (fid, f) ∈ filed available_formulas)
  ∧ ∀ fid f, by_id !! fid = Some f →
      formula_id f = Some fid ∧ (fid, f) ∈ filed available_formulas.
Proof.
  rewrite normalize_filed. split_and!.
  - rewrite dom_list_to_map_L, fmap_reverse.
    apply set_eq. intros x. by rewrite !elem_of_list_to_set, elem_of_reverse.
  - intros fid. rewrite elem_of_list_to_set, list_elem_of_fmap. split.
    + intros ([fid' f] & -> & Hin). by exists f.
    + intros [f Hin]. by exists (fid, f).
  - intros fid f Hl. apply elem_of_list_to_map_2 in Hl.
    rewrite elem_of_reverse in Hl.
    split; [by apply filed_id in Hl|done].
Qed.

(** X17. When several formulas carry the same id, the one met last is the
    one that stays in the map. *)
Theorem normalize_last_wins (available_formulas : formulas)
    (before after : list (string * formula)) (fid : string) (f : formula) :
  filed available_formulas = before ++ (fid, f) :: after →
  fid ∉ after.*1 →
  (normalize_available_formula_ids available_formulas).2 !! fid = Some f.
Proof.
  intros Hf Hlast. rewrite normalize_filed. simpl.
  rewrite Hf, reverse_app, reverse_cons, <- app_assoc, list_to_map_app.
  rewrite lookup_union_r.
  - simpl. apply lookup_insert_eq.
  - apply not_elem_of_list_to_map_1. by rewrite fmap_reverse, elem_of_reverse.
Qed.

Lemma normalize_last_wins_witness :
  (normalize_available_formula_ids
     (TopDict [("kinematics", SubList [ADict (Formula (Some "F1") "v = u + a t");
                                       ADict (Formula (Some "") "no id")]);
               ("dynamics", SubDict [("second_law",
                                      ADict (Formula (Some "F1") "F = m a"))])])).2
    !! "F1"
  = Some (Formula (Some "F1") "F = m a").
Proof.
  apply (normalize_last_wins _ [("F1", Formula (Some "F1") "v = u + a t")] []);
    [reflexivity|].
  simpl. apply not_elem_of_nil.
Defined.

(** ** Loading the chapters *)

Lemma dict_get_set {V : Type} (k k' : string) (v : V) d :
  dict_get k' (dict_set k v d)
  = if String.eqb k k' then Some v else dict_get k' d.
Proof.
  induction d as [|[k0 v0] d IH]; simpl.
  - done.
  - destruct (String.eqb k0 k) eqn:E0; simpl.
    + apply String.eqb_eq in E0 as ->. by destruct (String.eqb k k').
    + destruct (String.eqb k0 k') eqn:E1; [|done].
      apply String.eqb_eq in E1 as ->. by rewrite String.eqb_sym, E0.
Qed.

Lemma dict_get_update {V : Type} (k : string) (d new : list (string * V)) :
  dict_get k (dict_update d new)
  = match dict_get k (reverse new) with
    | Some v => Some v
    | None => dict_get k d
    end.
Proof.
  unfold dict_update. revert d.
  induction new as [|[k0 v0] new IH] using rev_ind; intros d; [done|].
  rewrite foldl_app, reverse_snoc. simpl.
  rewrite dict_get_set. by destruct (String.eqb k0 k).
Qed.




(** X18. A chapter that loads overwrites, key by key, what the chapters
    before it put in [available_formulas]: after the loading, a key of the
    chapter loaded last has the value this chapter gives it. *)
Theorem later_chapter_wins (corpus : string → option (list (string * section)))
    (earlier : list string) (last : string)
    (available_formulas temp_data : list (string * section))
    (key : string) (val : section) :
  corpus last = Some temp_data →
  dict_get key (reverse temp_data) = Some val →
  dict_get key (load_chapters corpus (earlier ++ [last]) available_formulas)
    = Some val.
Proof.
  intros Hc Hk. unfold load_chapters. rewrite foldl_app. simpl.
  by rewrite Hc, dict_get_update, Hk.
Qed.


Lemma later_chapter_wins_witness :
  dict_get "laws"
    (load_chapters
       (fun item => if String.eqb item "dynamics"
                    then Some [("laws", SubList [ADict (Formula (Some "F2") "F = m a")])]
                    else Some [("laws", SubList [ADict (Formula (Some "F1") "v = u + a t")])])
       (["kinematics"] ++ ["dynamics"]) [])
  = Some (SubList [ADict (Formula (Some "F2") "F = m a")]).
Proof.
  apply (later_chapter_wins _ ["kinematics"] "dynamics" []
           [("laws", SubList [ADict (Formula (Some "F2") "F = m a")])]);
    reflexivity.
Defined.


(** ** The other helpers *)

Lemma substring_all n s : String.length s ≤ n → String.substring 0 n s = s.
Proof.
  revert n. induction s as [|c s IH]; intros [|n]; simpl; try done; try lia.
  intros Hn. f_equal. apply IH. lia.
Qed.

(** X20. The view of the history that goes into a prompt holds the first
    [max_items] entries, in their order; on a history as the loop keeps it,
    no snippet is cut again. *)
Theorem prompt_history (previous_problems : list Previous.t) (max_items : nat) :
  length (format_previous_problems_for_prompt previous_problems max_items)
    = max_items `min` length previous_problems
  ∧ (format_previous_problems_for_prompt previous_problems max_items).*1
    = take max_items (Previous.signature <$> previous_problems)
  ∧ (window_ok previous_problems →
     format_previous_problems_for_prompt previous_problems max_items
     = (fun p => (Previous.signature p, Previous.snippet p))
         <$> take max_items previous_problems).
Proof.
  unfold format_previous_problems_for_prompt. split_and!.
  - by rewrite length_fmap, length_take.
  - by rewrite <- list_fmap_compose, fmap_take.
  - intros (_ & _ & Hsn). apply Forall_fmap_ext_1, Forall_take.
    eapply Forall_impl; [exact Hsn|]. intros p Hp. simpl.
    by rewrite substring_all.
Qed.

Lemma prompt_history_witness :
  format_previous_problems_for_prompt
    [Previous.Make "fids=[F1]|unknown=a" "A cart rolls." "2025-01-01";
     Previous.Make "fids=[F2]|unknown=m" "A ball falls." "2025-01-01"] 1
  = [("fids=[F1]|unknown=a", "A cart rolls.")].
Proof.
  destruct (prompt_history
              [Previous.Make "fids=[F1]|unknown=a" "A cart rolls." "2025-01-01";
               Previous.Make "fids=[F2]|unknown=m" "A ball falls." "2025-01-01"] 1)
    as (_ & _ & Hw).
  rewrite Hw; [reflexivity|].
  split_and!; [simpl; lia | apply (bool_decide_unpack _); vm_compute; exact I
              | repeat constructor; simpl; lia].
Defined.

Section CsvMore.
Variable int_of_str : string → option Z.

Lemma get_truthy_nonempty row k v : get_truthy row k = Some v → v ≠ "".
Proof.
  unfold get_truthy. destruct (row !! k) as [[|c s]|]; [done| |done].
  by intros [= <-].
Qed.

Lemma source_id_nonempty row pn : source_id row pn ≠ "".
Proof.
  unfold source_id.
  destruct (get_truthy row "source_problem_id") as [s|] eqn:Hs;
    [by eapply get_truthy_nonempty|].
  destruct (get_truthy row "chapter_name") as [[|c s]|] eqn:H1;
    [by apply get_truthy_nonempty in H1|done|].
  destruct (get_truthy row "chapter") as [[|c s]|] eqn:H2;
    [by apply get_truthy_nonempty in H2|done|done].
Qed.

(** X21. [iterate_csv_pairs] yields only rows of the file, in their order,
    each with a text that is not empty in every required column and with a
    source id that is not empty; a row that lacks a required column is
    skipped. *)
Theorem csv_rows_complete (rows : list (gmap string string))
    (required_columns : list string) (pair_counter : Z) :
  Seed.fields <$> iterate_csv_pairs int_of_str rows required_columns pair_counter
    `sublist_of` rows
  ∧ Forall (λ seed,
             Forall (λ c, is_Some (get_truthy (Seed.fields seed) c))
                    required_columns
             ∧ Seed.source_problem_ID seed ≠ "")
           (iterate_csv_pairs int_of_str rows required_columns pair_counter)
  ∧ ∀ row, row ∈ rows →
      Forall (λ c, is_Some (get_truthy row c)) required_columns →
      row ∈ Seed.fields
              <$> iterate_csv_pairs int_of_str rows required_columns pair_counter.
Proof.
  revert pair_counter.
  induction rows as [|row rows IH]; intros pair_counter; simpl.
  { split_and!; [done|done|]. by intros row ?%elem_of_nil. }
  destruct (IH (pair_counter + 1)%Z) as (I1 & I2 & I3).
  destruct (List.filter _ required_columns) as [|c missing] eqn:Hm; simpl.
  - assert (Hall : Forall (λ c, is_Some (get_truthy row c)) required_columns).
    { apply Forall_forall. intros c Hc. apply dec_stable. intros Hn.
      assert (Hin : In c (List.filter
                (fun c => negb (bool_decide (is_Some (get_truthy row c))))
                required_columns)).
      { apply filter_In. split; [by apply list_elem_of_In|].
        by rewrite bool_decide_eq_false_2. }
      by rewrite Hm in Hin. }
    split_and!.
    + by apply sublist_skip.
    + constructor; [|done]. split; [done|]. simpl. apply source_id_nonempty.
    + intros row' [->|Hin]%elem_of_cons Hreq; [by left|]. right. by apply I3.
  - split_and!; [by apply sublist_cons|done|].
    intros row' [->|Hin]%elem_of_cons Hreq; [|by apply I3].
    assert (Hin : In c (List.filter
              (fun c => negb (bool_decide (is_Some (get_truthy row c))))
              required_columns)) by (rewrite Hm; by left).
    apply filter_In in Hin as [Hin Hc]. apply list_elem_of_In in Hin.
    rewrite Forall_forall in Hreq. specialize (Hreq c Hin).
    by rewrite bool_decide_eq_true_2 in Hc.
Qed.


End CsvMore.


(** ** The code handed to the executor *)

Lemma prefix_fence s :
  String.prefix "```" s = true →
  ∃ rest, s = String "`" (String "`" (String "`" rest)).
Proof.
  destruct s as [|a [|b [|c rest]]]; cbn [String.prefix]; try done;
    repeat (destruct (ascii_dec _ _) as [<-|]; try done).
  by eexists.
Qed.

Lemma prefix_fence_app s tail :
  String.prefix "```" s = true → String.prefix "```" (s +:+ tail) = true.
Proof.
  intros [rest ->]%prefix_fence.
  change (String "`" (String "`" (String "`" rest)) +:+ tail)
    with (String "`" (String "`" (String "`" (rest +:+ tail)))).
  cbn [String.prefix]. repeat (destruct (ascii_dec _ _); [|congruence]).
  by destruct (rest +:+ tail).
Qed.

(** The pieces of a split: there is a first one, it begins the text, and no
    piece holds a fence. *)
Lemma split_fence_parts n s :
  String.length s < n →
  (∃ part parts tail, split_fence s = part :: parts ∧ s = part +:+ tail)
  ∧ Forall (λ part, contains "```" part = false) (split_fence s)
  ∧ (contains "```" s = true → 2 ≤ length (split_fence s)).
Proof.
  revert s. induction n as [|n IH]; intros s Hn; [lia|].
  destruct s as [|c s'].
  { split_and!; [by exists "", [], ""|by repeat constructor|done]. }
  cbn [split_fence].
  destruct (String.prefix "```" (String c s')) eqn:Hp.
  - destruct (prefix_fence _ Hp) as [rest Hs]. injection Hs as -> ->.
    destruct (IH rest) as ((part & parts & tail & Hsplit & _) & Hclean & _).
    { simpl in Hn. lia. }
    split_and!.
    + by eexists "", _, _.
    + by constructor.
    + intros _. rewrite Hsplit. simpl. lia.
  - destruct (IH s') as ((part & parts & tail & Hsplit & Htail) & Hclean & Htwo).
    { simpl in Hn. lia. }
    rewrite Hsplit in *. split_and!.
    + exists (String c part), parts, tail. split; [done|]. by rewrite Htail at 1.
    + apply Forall_cons in Hclean as [Hpart Hparts].
      constructor; [|done]. cbn [contains]. rewrite Hpart, orb_false_r.
      destruct (String.prefix "```" (String c part)) eqn:Hp'; [|done].
      apply (prefix_fence_app _ tail) in Hp'.
      change (String c part +:+ tail) with (String c (part +:+ tail)) in Hp'.
      by rewrite <- Htail, Hp in Hp'.
    + cbn [contains]. rewrite Hp. simpl. intros Hc. specialize (Htwo Hc).
      simpl in *. lia.
Qed.

Section SanitizeMore.
Variable strip : string → string.

Lemma first_code_part_strip parts x :
  first_code_part strip parts = Some x → ∃ part, part ∈ parts ∧ x = strip part.
Proof.
  induction parts as [|part parts IH]; simpl; [done|].
  destruct (String.eqb (strip part) "").
  { intros (p & Hp & ->)%IH. exists p. split; [by right|done]. }
  destruct (looks_like_code (strip part)).
  - intros [= <-]. exists part. split; [by left|done].
  - intros (p & Hp & ->)%IH. exists p. split; [by right|done].
Qed.

(** X23. Whatever the response, the text that [sanitize_code_text] returns
    is a stripped text, and it holds no fence: when the response holds
    fences, it is one of the pieces between them, stripped.  (Stripping takes
    blanks off both ends, so it cannot bring a fence into a text.) *)
Theorem sanitize_no_fence (code_text : string) :
  (∀ x, contains "```" x = false → contains "```" (strip x) = false) →
  contains "```" (sanitize_code_text strip code_text) = false
  ∧ (∃ x, sanitize_code_text strip code_text = strip x)
  ∧ (contains "```" (strip code_text) = true →
     ∃ part, part ∈ split_fence (strip code_text)
             ∧ sanitize_code_text strip code_text = strip part).
Proof.
  intros Hstrip. unfold sanitize_code_text.
  destruct (contains "```" (strip code_text)) eqn:Hc;
    [|split_and!; [done|by eexists|done]].
  destruct (split_fence_parts (S (String.length (strip code_text)))
              (strip code_text)) as (_ & Hclean & Htwo); [lia|].
  specialize (Htwo Hc). rewrite Forall_forall in Hclean.
  assert (Hpart : ∃ part, part ∈ split_fence (strip code_text)
            ∧ match first_code_part strip (split_fence (strip code_text)) with
              | Some part_strip => part_strip
              | None => match split_fence (strip code_text) with
                        | _ :: part1 :: _ => strip part1
                        | _ => strip code_text
                        end
              end = strip part).
  { destruct (first_code_part strip _) as [x|] eqn:Hf.
    - by apply first_code_part_strip in Hf.
    - destruct (split_fence (strip code_text)) as [|p0 [|p1 rest]];
        simpl in Htwo; try lia.
      exists p1. split; [|done]. right. left. }
  destruct Hpart as (part & Hin & ->).
  split_and!; [by apply Hstrip, Hclean|by eexists|intros _; by exists part].
Qed.

End SanitizeMore.

Lemma contains_fence_app s tail :
  contains "```" s = true → contains "```" (s +:+ tail) = true.
Proof.
  induction s as [|c s IH]; [done|].
  change (String c s +:+ tail) with (String c (s +:+ tail)).
  cbn [contains]. intros [Hp|Hc]%orb_true_iff; apply orb_true_iff.
  - left. by apply (prefix_fence_app (String c s) tail).
  - right. by apply IH.
Qed.

Lemma lstrip_no_fence x :
  contains "```" x = false → contains "```" (lstrip x) = false.
Proof.
  induction x as [|c x IH]; [done|].
  cbn [lstrip]. destruct (blank c); [|done].
  cbn [contains]. intros [_ Hx]%orb_false_iff. by apply IH.
Qed.

(** What [rstrip] keeps is the front of the text. *)
Lemma rstrip_prefix x : ∃ tail, x = rstrip x +:+ tail.
Proof.
  induction x as [|c x [tail IH]]; [by exists ""|].
  cbn [rstrip]. destruct (rstrip x) as [|a r].
  - destruct (blank c); [by eexists|]. by exists x.
  - exists tail. by rewrite IH at 1.
Qed.

Lemma rstrip_no_fence x :
  contains "```" x = false → contains "```" (rstrip x) = false.
Proof.
  intros Hx. destruct (contains "```" (rstrip x)) eqn:Hr; [|done].
  destruct (rstrip_prefix x) as [tail Ht].
  apply (contains_fence_app _ tail) in Hr. by rewrite <- Ht, Hx in Hr.
Qed.

Lemma strip_blank_no_fence x :
  contains "```" x = false → contains "```" (strip_blank x) = false.
Proof. intros Hx. by apply rstrip_no_fence, lstrip_no_fence. Qed.

Lemma sanitize_no_fence_witness :
  sanitize_code_text strip_blank
    "Here is the code: ``` def solve(): return 2 ``` "
  = "def solve(): return 2"
  ∧ contains "```"
      (sanitize_code_text strip_blank
         "Here is the code: ``` def solve(): return 2 ``` ") = false.
Proof.
  split; [vm_compute; reflexivity|].
  apply (sanitize_no_fence strip_blank). apply strip_blank_no_fence.
Defined.

(** ** Signatures of plain formula ids *)

Lemma prefix_empty s : String.prefix "" s = true.
Proof. by destruct s. Qed.

Lemma contains_char_cons (c a : ascii) (s : string) :
  contains (String c "") (String a s)
  = (if ascii_dec c a then true else false) || contains (String c "") s.
Proof.
  cbn [contains String.prefix].
  destruct (ascii_dec c a); [|done]. by rewrite prefix_empty.
Qed.

Lemma contains_char_app (c : ascii) (x y : string) :
  contains (String c "") (x +:+ y)
  = contains (String c "") x || contains (String c "") y.
Proof.
  induction x as [|a x IH].
  - change ("" +:+ y) with y. by destruct y.
  - change (String a x +:+ y) with (String a (x +:+ y)).
    rewrite !contains_char_cons, IH. by rewrite orb_assoc.
Qed.

(** Two texts without the character [c], each followed by [c], can be read
    back from their concatenation. *)
Lemma split_at_char (c : ascii) (a b x y : string) :
  contains (String c "") a = false →
  contains (String c "") b = false →
  a +:+ String c x = b +:+ String c y →
  a = b ∧ x = y.
Proof.
  revert b. induction a as [|a0 a IH]; intros [|b0 b] Ha Hb.
  - by intros [= ->].
  - change ("" +:+ String c x) with (String c x).
    change (String b0 b +:+ String c y) with (String b0 (b +:+ String c y)).
    intros [= -> _]. rewrite contains_char_cons in Hb.
    by destruct (ascii_dec b0 b0).
  - change ("" +:+ String c y) with (String c y).
    change (String a0 a +:+ String c x) with (String a0 (a +:+ String c x)).
    intros [= -> _]. rewrite contains_char_cons in Ha.
    by destruct (ascii_dec c c).
  - change (String a0 a +:+ String c x) with (String a0 (a +:+ String c x)).
    change (String b0 b +:+ String c y) with (String b0 (b +:+ String c y)).
    intros [= -> Heq]. rewrite contains_char_cons in Ha, Hb.
    apply orb_false_iff in Ha as [_ Ha]. apply orb_false_iff in Hb as [_ Hb].
    destruct (IH b Ha Hb Heq) as [-> ->]. done.
Qed.

Lemma plain_id_inv fid :
  plain_id fid = true →
  fid ≠ "" ∧ contains "," fid = false ∧ contains "]" fid = false.
Proof.
  unfold plain_id. intros [[H1 H2]%andb_true_iff H3]%andb_true_iff.
  apply negb_true_iff in H1, H2, H3. by apply String.eqb_neq in H1.
Qed.

Lemma join_cons2 sep x y l :
  join sep (x :: y :: l) = x +:+ sep +:+ join sep (y :: l).
Proof. done. Qed.

Lemma join_no_bracket l :
  Forall (λ fid, plain_id fid = true) l → contains "]" (join "," l) = false.
Proof.
  induction 1 as [|x l Hx Hl IH]; [done|].
  apply plain_id_inv in Hx as (_ & _ & Hx).
  destruct l as [|y l]; [done|].
  rewrite join_cons2, !contains_char_app, Hx, IH. done.
Qed.

Lemma join_plain_inj l1 l2 :
  Forall (λ fid, plain_id fid = true) l1 →
  Forall (λ fid, plain_id fid = true) l2 →
  join "," l1 = join "," l2 → l1 = l2.
Proof.
  intros H1. revert l2.
  induction H1 as [|x l1 Hx Hl1 IH]; intros l2 H2 Heq.
  - destruct H2 as [|y l2 Hy Hl2]; [done|].
    apply plain_id_inv in Hy as (Hy & _).
    destruct l2 as [|z l2]; [by simpl in Heq|].
    rewrite join_cons2 in Heq. simpl in Heq. by destruct y.
  - destruct H2 as [|y l2 Hy Hl2].
    { apply plain_id_inv in Hx as (Hx & _).
      destruct l1 as [|z l1]; [by simpl in Heq|].
      rewrite join_cons2 in Heq. simpl in Heq. by destruct x. }
    pose proof (plain_id_inv _ Hx) as (_ & Hxc & _).
    pose proof (plain_id_inv _ Hy) as (_ & Hyc & _).
    destruct l1 as [|x2 l1], l2 as [|y2 l2].
    + simpl in Heq. by subst.
    + rewrite join_cons2 in Heq. simpl in Heq. subst x.
      rewrite !contains_char_app in Hxc.
      change (contains "," ",") with true in Hxc.
      by rewrite orb_true_r in Hxc.
    + rewrite join_cons2 in Heq. simpl in Heq. subst y.
      rewrite !contains_char_app in Hyc.
      change (contains "," ",") with true in Hyc.
      by rewrite orb_true_r in Hyc.
    + rewrite !join_cons2 in Heq.
      apply split_at_char in Heq as [-> Heq]; [|done..].
      f_equal. by apply IH.
Qed.

(** X24. When no formula id is empty or holds a comma or a closing bracket,
    two candidates get the same signature exactly when their formula ids are
    the same up to order and their unknowns print the same: the signature
    tells apart all the problems it is meant to tell apart. *)
Theorem signature_injective (c1 c2 : candidate) :
  Forall (λ fid, plain_id fid = true) (formula_ids c1) →
  Forall (λ fid, plain_id fid = true) (formula_ids c2) →
  compute_problem_signature c1 = compute_problem_signature c2
  ↔ formula_ids c1 ≡ₚ formula_ids c2
    ∧ str_option (first_unknown (variables c1))
      = str_option (first_unknown (variables c2)).
Proof.
  intros H1 H2. unfold compute_problem_signature. split.
  - intros Heq. apply String.app_inj in Heq.
    assert (Hs1 : Forall (λ fid, plain_id fid = true) (sorted (formula_ids c1)))
      by (by rewrite sorted_Permutation).
    assert (Hs2 : Forall (λ fid, plain_id fid = true) (sorted (formula_ids c2)))
      by (by rewrite sorted_Permutation).
    apply (split_at_char "]") in Heq as [Hj Hu];
      [|by apply join_no_bracket..].
    injection Hu as Hu. split; [|done].
    apply join_plain_inj in Hj; [|done..].
    by rewrite <- (sorted_Permutation (formula_ids c1)), Hj, sorted_Permutation.
  - intros [Hp Hu]. by rewrite (sorted_unique _ _ Hp), Hu.
Qed.

Lemma signature_injective_witness :
  ["F2"; "F1"] ≡ₚ ["F1"; "F2"]
  ∧ str_option (first_unknown scenario_variables) = "acceleration".
Proof.
  apply (signature_injective (Candidate "a" ["F2"; "F1"] scenario_variables)
           (Candidate "b" ["F1"; "F2"] scenario_variables));
    [repeat constructor.. | reflexivity].
Defined.

(** ** The reply of the service as JSON *)

Lemma app_String c s t : String c s +:+ t = String c (s +:+ t).
Proof. done. Qed.

Lemma app_empty_l (s : string) : "" +:+ s = s.
Proof. done. Qed.

Lemma app_empty_r (s : string) : s +:+ "" = s.
Proof. induction s as [|c s IH]; [done|]. by rewrite app_String, IH. Qed.

Lemma app_assoc_s (a b c : string) : (a +:+ b) +:+ c = a +:+ (b +:+ c).
Proof. induction a as [|x a IH]; [done|]. by rewrite !app_String, IH. Qed.

Lemma length_app_s (a b : string) :
  String.length (a +:+ b) = String.length a + String.length b.
Proof.
  induction a as [|x a IH]; [done|]. rewrite app_String. simpl. by rewrite IH.
Qed.

Lemma lstrip_blanks pre s : blanks pre = true → lstrip (pre +:+ s) = lstrip s.
Proof.
  induction pre as [|c pre IH]; [done|].
  cbn [blanks]. intros [Hc Hpre]%andb_true_iff.
  rewrite app_String. cbn [lstrip]. rewrite Hc. by apply IH.
Qed.

Lemma lstrip_length s : String.length (lstrip s) ≤ String.length s.
Proof.
  induction s as [|c s IH]; [done|]. cbn [lstrip].
  destruct (blank c); simpl in *; lia.
Qed.

Lemma lstrip_fixed s :
  String.length (lstrip s) = String.length s → lstrip s = s.
Proof.
  destruct s as [|c s]; [done|]. cbn [lstrip].
  destruct (blank c); [|done].
  pose proof (lstrip_length s). simpl. lia.
Qed.

Lemma lstrip_fixed_app s t : s ≠ "" → lstrip s = s → lstrip (s +:+ t) = s +:+ t.
Proof.
  destruct s as [|c s]; [done|]. intros _. rewrite app_String. cbn [lstrip].
  destruct (blank c) eqn:Hc; [|done].
  intros Hs. pose proof (lstrip_length s) as Hl. rewrite Hs in Hl.
  simpl in Hl. lia.
Qed.

Lemma rstrip_length s : String.length (rstrip s) ≤ String.length s.
Proof.
  induction s as [|c s IH]; [done|]. cbn [rstrip].
  destruct (rstrip s); [destruct (blank c)|]; simpl in *; lia.
Qed.

Lemma rstrip_fixed s :
  String.length (rstrip s) = String.length s → rstrip s = s.
Proof.
  induction s as [|c s IH]; [done|]. cbn [rstrip].
  pose proof (rstrip_length s) as Hl.
  destruct (rstrip s) as [|a r] eqn:Hr.
  - destruct (blank c); simpl; [lia|].
    destruct s; simpl; [done|lia].
  - simpl in *. intros Hlen. rewrite IH; [done|lia].
Qed.

Lemma rstrip_app u v :
  rstrip (u +:+ v)
  = match rstrip v with
    | EmptyString => rstrip u
    | String _ _ as r => u +:+ r
    end.
Proof.
  induction u as [|c u IH].
  - rewrite app_empty_l. by destruct (rstrip v).
  - rewrite app_String. cbn [rstrip]. rewrite IH.
    destruct (rstrip v) as [|a r]; [done|].
    rewrite app_String. by destruct u.
Qed.

Lemma rstrip_blanks s : blanks s = true → rstrip s = "".
Proof.
  induction s as [|c s IH]; [done|].
  cbn [blanks rstrip]. intros [Hc Hs]%andb_true_iff. by rewrite IH, Hc.
Qed.

Lemma strip_blank_fixed body :
  strip_blank body = body → lstrip body = body ∧ rstrip body = body.
Proof.
  unfold strip_blank. intros Hb.
  pose proof (lstrip_length body) as H1.
  pose proof (rstrip_length (lstrip body)) as H2.
  assert (Hl : lstrip body = body).
  { apply lstrip_fixed. rewrite Hb in H2. lia. }
  split; [done|]. by rewrite Hl in Hb.
Qed.

Lemma endswith_app u x : endswith x (u +:+ x) = true.
Proof.
  induction u as [|c u IH].
  - rewrite app_empty_l. destruct x; cbn [endswith]; by rewrite String.eqb_refl.
  - rewrite app_String. cbn [endswith]. by rewrite IH, orb_true_r.
Qed.

Lemma substring_app u x :
  String.substring 0 (String.length (u +:+ x) - String.length x) (u +:+ x) = u.
Proof.
  induction u as [|c u IH].
  - rewrite app_empty_l, Nat.sub_diag. by destruct x.
  - rewrite app_String.
    assert (Hlen : String.length (String c (u +:+ x)) - String.length x
                   = S (String.length (u +:+ x) - String.length x)).
    { simpl. rewrite length_app_s. lia. }
    rewrite Hlen. cbn [String.substring]. by rewrite IH.
Qed.

Lemma prefix_app p t : String.prefix p (p +:+ t) = true.
Proof.
  induction p as [|c p IH]; [by destruct t|].
  rewrite app_String. cbn [String.prefix].
  by destruct (ascii_dec c c).
Qed.

Lemma drop_front_app p t : drop_front (String.length p) (p +:+ t) = t.
Proof.
  induction p as [|c p IH]; [by destruct t|].
  by rewrite app_String.
Qed.

Lemma strip_fences pre x post :
  blanks pre = true → blanks post = true →
  strip_blank (pre +:+ "```" +:+ x +:+ "```" +:+ post) = "```" +:+ x +:+ "```".
Proof.
  intros Hpre Hpost. unfold strip_blank. rewrite (lstrip_blanks pre) by done.
  change (lstrip ("```" +:+ x +:+ "```" +:+ post))
    with ("```" +:+ x +:+ "```" +:+ post).
  rewrite <- !app_assoc_s.
  rewrite (rstrip_app _ post), (rstrip_blanks post) by done.
  rewrite (rstrip_app _ "```"). change (rstrip "```") with "```".
  cbv beta iota. by rewrite !app_assoc_s.
Qed.

Lemma strip_blank_padded pre body post :
  blanks pre = true → blanks post = true → strip_blank body = body →
  strip_blank (pre +:+ body +:+ post) = body.
Proof.
  intros Hpre Hpost [Hl Hr]%strip_blank_fixed. unfold strip_blank.
  rewrite (lstrip_blanks pre) by done.
  destruct (decide (body = "")) as [->|Hne].
  - rewrite app_empty_l. rewrite <- (app_empty_r post) at 1.
    by rewrite (lstrip_blanks post).
  - rewrite (lstrip_fixed_app body) by done.
    by rewrite rstrip_app, (rstrip_blanks post).
Qed.

Section LlmOpMore.
Context {A : Type}.
Variable json_loads : string → option A.

(** X25. The fences and the blanks around a reply do not matter to
    [llm_op_to_json]: a text between a [```json] fence and a closing fence,
    with blanks anywhere around, and the same text bare, are both parsed as
    the text itself. *)
Theorem llm_op_to_json_fenced (pre a body b post : string) :
  blanks pre = true → blanks a = true → blanks b = true → blanks post = true →
  strip_blank body = body →
  llm_op_to_json strip_blank json_loads
    (pre +:+ "```json" +:+ a +:+ body +:+ b +:+ "```" +:+ post)
  = json_loads body
  ∧ (String.prefix "```json" body = false → endswith "```" body = false →
     llm_op_to_json strip_blank json_loads (pre +:+ body +:+ post)
     = json_loads body).
Proof.
  intros Hpre Ha Hb Hpost Hbody. split.
  2:{ intros Hp He. unfold llm_op_to_json, cleaned.
      by rewrite (strip_blank_padded pre body post), Hp, He. }
  apply strip_blank_fixed in Hbody as [Hl Hr].
  unfold llm_op_to_json, cleaned. f_equal.
  assert (Hs : pre +:+ "```json" +:+ a +:+ body +:+ b +:+ "```" +:+ post
               = pre +:+ "```" +:+ ("json" +:+ a +:+ body +:+ b)
                     +:+ "```" +:+ post)
    by (by rewrite !app_assoc_s).
  rewrite Hs, strip_fences by done. clear Hs.
  change ("```" +:+ ("json" +:+ a +:+ body +:+ b) +:+ "```")
    with ("```json" +:+ (a +:+ body +:+ b) +:+ "```").
  rewrite (prefix_app "```json").
  pose proof (drop_front_app "```json" ((a +:+ body +:+ b) +:+ "```")) as Hd.
  change (String.length "```json") with 7 in Hd. rewrite Hd. clear Hd.
  destruct (decide (body = "")) as [->|Hne].
  - assert (H2 : strip_blank ((a +:+ "" +:+ b) +:+ "```") = "```").
    { unfold strip_blank. rewrite app_assoc_s, (lstrip_blanks a) by done.
      rewrite app_empty_l, (lstrip_blanks b) by done. done. }
    rewrite H2. done.
  - assert (H2 : strip_blank ((a +:+ body +:+ b) +:+ "```")
                 = (body +:+ b) +:+ "```").
    { unfold strip_blank. rewrite app_assoc_s, (lstrip_blanks a) by done.
      rewrite app_assoc_s, (lstrip_fixed_app body) by done.
      rewrite <- app_assoc_s, (rstrip_app _ "```").
      by change (rstrip "```") with "```". }
    rewrite H2, endswith_app.
    pose proof (substring_app (body +:+ b) "```") as Hs.
    change (String.length "```") with 3 in Hs. rewrite Hs. clear Hs.
    unfold strip_blank. rewrite (lstrip_fixed_app body) by done.
    by rewrite rstrip_app, (rstrip_blanks b).
Qed.

(** X26. An opening fence without the [json] tag stays: when a reply opens
    with a bare fence and a line break, the text that [llm_op_to_json] hands
    to [json.loads] has lost the closing fence only, and still opens with
    the fence. *)
Theorem llm_op_to_json_bare_fence (pre a body b post : string) :
  blanks pre = true → blanks a = true → blanks b = true → blanks post = true →
  a ≠ "" → body ≠ "" → strip_blank body = body →
  llm_op_to_json strip_blank json_loads
    (pre +:+ "```" +:+ a +:+ body +:+ b +:+ "```" +:+ post)
  = json_loads ("```" +:+ a +:+ body).
Proof.
  intros Hpre Ha Hb Hpost Hane Hne [Hl Hr]%strip_blank_fixed.
  unfold llm_op_to_json, cleaned. f_equal.
  assert (Hs : pre +:+ "```" +:+ a +:+ body +:+ b +:+ "```" +:+ post
               = pre +:+ "```" +:+ (a +:+ body +:+ b) +:+ "```" +:+ post)
    by (by rewrite !app_assoc_s).
  rewrite Hs, strip_fences by done. clear Hs.
  assert (Hp : String.prefix "```json" ("```" +:+ (a +:+ body +:+ b) +:+ "```")
               = false).
  { destruct a as [|c a']; [done|]. cbn [blanks] in Ha.
    apply andb_true_iff in Ha as [Hc _].
    change ("```" +:+ (String c a' +:+ body +:+ b) +:+ "```")
      with (String "`" (String "`" (String "`"
              (String c ((a' +:+ body +:+ b) +:+ "```"))))).
    cbn [String.prefix]. repeat (destruct (ascii_dec _ _); [|congruence]).
    destruct (ascii_dec "j" c) as [<-|]; [|done]. done. }
  rewrite Hp.
  change ("```" +:+ (a +:+ body +:+ b) +:+ "```")
    with (("```" +:+ a +:+ body +:+ b) +:+ "```").
  rewrite endswith_app.
  pose proof (substring_app ("```" +:+ a +:+ body +:+ b) "```") as Hs.
  change (String.length "```") with 3 in Hs. rewrite Hs. clear Hs.
  unfold strip_blank.
  change (lstrip ("```" +:+ a +:+ body +:+ b)) with ("```" +:+ a +:+ body +:+ b).
  rewrite <- !app_assoc_s.
  rewrite rstrip_app, (rstrip_blanks b) by done.
  rewrite rstrip_app, Hr. destruct body; [done|]. by rewrite !app_assoc_s.
Qed.

End LlmOpMore.

Lemma llm_op_to_json_fenced_witness :
  llm_op_to_json strip_blank numeral
    (" " +:+ "```json" +:+ String "010" "" +:+ "42" +:+ String "010" ""
         +:+ "```" +:+ String "010" "")
  = Some 42%Z.
Proof.
  apply (llm_op_to_json_fenced numeral " " (String "010" "") "42"
           (String "010" "") (String "010" "")); reflexivity.
Defined.

Lemma llm_op_to_json_bare_fence_witness :
  llm_op_to_json strip_blank numeral
    ("" +:+ "```" +:+ String "010" "" +:+ "42" +:+ String "010" ""
        +:+ "```" +:+ "")
  = None.
Proof.
  rewrite (llm_op_to_json_bare_fence numeral "" (String "010" "") "42"
             (String "010" "") ""); [reflexivity|reflexivity..|done|done|reflexivity].
Defined.
